(** * The QUIC benchmark client driver of [examples/client.c]

    A shallow embedding of the event-driven client: the timing ledger
    [fcts], the egress flusher [flush_egress], the socket callback
    [recv_cb], the three timer callbacks [request_cb], [timeout_cb] and
    [close_cb], and the part of [main] that builds the connection context
    and enters the event loop.

    The QUIC engine, the UDP socket and the clock are external to the
    driver.  They are an interface ([World]): every theorem holds for every
    implementation of it, and the concrete runs use a scripted one
    ([script]). *)

From Stdlib Require Import ZArith List Bool Lia.
From Stdlib Require Floats.SpecFloat.
From stdpp Require Import base list.
Import ListNotations.
Open Scope Z_scope.

(** ** Constants of the source *)

(** [#define N 100]: the request budget and the capacity of the ledger. *)
Definition N : Z := 100.

(** Modelled from the spec: the "done" result code of the engine,
    [QUICHE_ERR_DONE] of quiche.h, which is not among the sources. *)
Definition QUICHE_ERR_DONE : Z := -1.

(** Modelled from the spec: the "would block" error numbers of errno.h
    (one value on Linux), which is not among the sources. *)
Definition EAGAIN : Z := 11.
Definition EWOULDBLOCK : Z := 11.

(** [sizeof(r)] for [r = "GET /index.html\r\n"], the terminating NUL
    included. *)
Definition sizeof_r : Z := 18.

(** ** Machine integers *)

(** Conversion to [int] (32 bits, two's complement). *)
Definition to_int (z : Z) : Z := (z + 2 ^ 31) mod 2 ^ 32 - 2 ^ 31.

(** Conversion to [uint64_t] / [unsigned long long]. *)
Definition to_u64 (z : Z) : Z := z mod 2 ^ 64.

(** An [unsigned long long] read back as [long long], as [printf]'s
    [%lld] does. *)
Definition to_i64 (z : Z) : Z := (z + 2 ^ 63) mod 2 ^ 64 - 2 ^ 63.

(** The status the parent process sees for [exit(code)]. *)
Definition exit_status (code : Z) : Z := code mod 256.

(** ** Data model *)

(** [struct timeval], with [time_t] and [suseconds_t] as [long]. *)
Record timeval := Timeval { tv_sec : Z; tv_usec : Z }.

(** [(struct timeval) {0}] *)
Definition tv_zero : timeval := Timeval 0 0.

(** [struct fct]; the field [end] is spelled [end_]. *)
Record fct := Fct { begin : timeval; end_ : timeval }.

Definition fct_zero : fct := Fct tv_zero tv_zero.

Definition set_begin (t : timeval) (f : fct) : fct := Fct t (end_ f).
Definition set_end (t : timeval) (f : fct) : fct := Fct (begin f) t.

(** ** Floating point

    Timer periods are [double]s (seconds).  They are kept as the values of
    the Standard Library's specification of IEEE 754 arithmetic, with
    rounding to nearest even: precision 24 and [emax] 128 for [float],
    53 and 1024 for [double]. *)
Abbreviation spec_float := SpecFloat.spec_float.

(** Conversion of a [uint64_t] to [float]. *)
Definition float_of_u64 (z : Z) : spec_float :=
  SpecFloat.binary_normalize 24 128 z 0 false.

(** Conversion of a [float] to [double]; it keeps the value. *)
Definition double_of_float (f : spec_float) : spec_float :=
  match f with
  | SpecFloat.S754_finite s m e =>
    SpecFloat.binary_normalize 53 1024 (if s then Z.neg m else Z.pos m) e s
  | _ => f
  end.

(** [nanos / 1e9f] for a [uint64_t nanos], stored in a [double]: the
    operand is converted to [float] and the division is a single-precision
    one. *)
Definition timeout_seconds (nanos : Z) : spec_float :=
  double_of_float
    (SpecFloat.SFdiv 24 128 (float_of_u64 nanos) (float_of_u64 1000000000)).

(** The [double]s 0, 0.1 and 1. *)
Definition double_0 : spec_float := SpecFloat.S754_zero false.
Definition double_0_1 : spec_float :=
  SpecFloat.S754_finite false 7205759403792794 (-56).
Definition double_1 : spec_float :=
  SpecFloat.S754_finite false 4503599627370496 (-52).

(** The test [if (x)] on a [double]. *)
Definition is_zero (f : spec_float) : bool :=
  match f with
  | SpecFloat.S754_zero _ => true
  | _ => false
  end.

(** Modelled from the spec: a timer of the event library (ev.h is not
    among the sources), with its period [repeat] in seconds. *)
Record ev_timer := EvTimer { active : bool; repeat : spec_float }.

(** Modelled from the spec: re-arming replaces the scheduled firing by one
    [repeat] from now; a timer whose [repeat] is zero is stopped. *)
Definition ev_timer_again (t : ev_timer) : ev_timer :=
  EvTimer (negb (is_zero (repeat t))) (repeat t).

Definition ev_timer_stop (t : ev_timer) : ev_timer :=
  EvTimer false (repeat t).

Definition set_repeat (r : spec_float) (t : ev_timer) : ev_timer :=
  EvTimer (active t) r.

(** [struct conn_io]; the socket and the engine handle live in the
    world. *)
Record conn_io := ConnIo {
  timer : ev_timer;
  request : ev_timer;
  close : ev_timer;
  request_id : Z
}.

(** The driver's calls of [printf].  [Payload len] is the call
    [printf("%.*s", len, buf)]: it prints the bytes of the receive buffer
    up to its first NUL, at most [len] of them; the buffer's content is
    not modelled.  [Report i t] is [printf("%d, %lld\n", i, t)]. *)
Inductive output :=
| Payload (len : Z)
| Report (i : Z) (t : Z).

(** The calls the driver makes into the engine and the socket, with their
    results. *)
Inductive call :=
| ConnSend (ret : Z)
| SockSend (len ret : Z)
| SockRecv (ret errno : Z)
| ConnRecv (len ret : Z)
| StreamRecv (s ret : Z) (fin : bool)
| StreamSend (s ret : Z)
| OnTimeout
| ConnClose (ret : Z).

(** ** The external collaborators *)

(** The operations of the engine, the socket and the clock the driver
    calls.  [W] is their joint state. *)
Class World (W : Type) := {
  quiche_conn_send : W -> Z * W;
  send : Z -> W -> Z * W;
  recv : W -> (Z * Z) * W;
  quiche_conn_recv : Z -> W -> Z * W;
  quiche_conn_is_closed : W -> bool;
  quiche_conn_is_established : W -> bool;
  quiche_conn_readable : W -> list Z;
  quiche_conn_stream_recv : Z -> W -> (Z * bool) * W;
  quiche_conn_stream_send : Z -> W -> Z * W;
  quiche_conn_close : W -> Z * W;
  quiche_conn_on_timeout : W -> W;
  quiche_conn_timeout_as_nanos : W -> Z;
  gettimeofday : W -> timeval * W
}.

(** How a [while (1)] loop inside a callback is left: by [break] or by
    [return] from the callback. *)
Inductive loop_exit := Break | Returned.

Section Driver.

Context {W : Type} {ops : World W}.

(** The state of the process: the world, the connection context, the
    global ledger [fcts], and three records kept for the proofs:
    [stray] lists the indices of ledger writes that fell outside
    [fcts[0..N-1]] (newest first; such a write lands beyond the array and
    is taken to leave the [N] slots and the connection context as they
    are), [stdout] is the output in the order written, [calls] the
    external calls made, newest first.  [broken] is set by [ev_break]. *)
Record state := State {
  world : W;
  io : conn_io;
  fcts : list fct;
  stray : list Z;
  stdout : list output;
  calls : list call;
  broken : bool
}.

Definition set_world (w : W) (st : state) : state :=
  State w (io st) (fcts st) (stray st) (stdout st) (calls st) (broken st).

Definition set_io (c : conn_io) (st : state) : state :=
  State (world st) c (fcts st) (stray st) (stdout st) (calls st) (broken st).

Definition log (c : call) (st : state) : state :=
  State (world st) (io st) (fcts st) (stray st) (stdout st) (c :: calls st)
        (broken st).

Definition print (o : output) (st : state) : state :=
  State (world st) (io st) (fcts st) (stray st) (stdout st ++ [o]) (calls st)
        (broken st).

Definition ev_break (st : state) : state :=
  State (world st) (io st) (fcts st) (stray st) (stdout st) (calls st) true.

(** [sizeof(struct fct)] is 32, so the address [fcts + 32 * i] of entry
    [i], computed modulo 2^64 for a 64-bit index, is the address of entry
    [i mod 2^59]. *)
Definition wrap_index (i : Z) : Z := i mod 2 ^ 59.

(** A store into [fcts[i]], for an index whose byte offset [32 * i] does
    not wrap: an [int] index, or the [wrap_index] of a 64-bit one.  Inside
    the array it updates the slot, outside it lands beyond the array. *)
Definition ledger_write (upd : fct -> fct) (i : Z) (st : state) : state :=
  if (0 <=? i) && (i <? N)
  then State (world st) (io st) (alter upd (Z.to_nat i) (fcts st))
             (stray st) (stdout st) (calls st) (broken st)
  else State (world st) (io st) (fcts st) (i :: stray st) (stdout st)
             (calls st) (broken st).

(** [gettimeofday(&fcts[i].begin, NULL)] and
    [gettimeofday(&fcts[i].end, NULL)] *)
Definition stamp (upd : timeval -> fct -> fct) (i : Z) (st : state) : state :=
  let '(now, w) := gettimeofday (world st) in
  ledger_write (upd now) i (set_world w st).

(** The result of a callback: it returns to the event loop, or the process
    exits, or the callback never returns (the loop fuel ran out). *)
Inductive outcome :=
| Return (st : state)
| Exit (code : Z) (st : state)
| Diverge.

(** *** [flush_egress] *)

Fixpoint flush_loop (fuel : nat) (st : state) : option (loop_exit * state) :=
  match fuel with
  | O => None
  | S fuel' =>
    let '(written, w1) := quiche_conn_send (world st) in
    let st1 := log (ConnSend written) (set_world w1 st) in
    if written =? QUICHE_ERR_DONE then Some (Break, st1)
    else if written <? 0 then Some (Returned, st1)
    else
      let '(sent, w2) := send written (world st1) in
      let st2 := log (SockSend written sent) (set_world w2 st1) in
      if negb (sent =? written) then Some (Returned, st2)
      else flush_loop fuel' st2
  end.

(** Lines 100-102: [t = quiche_conn_timeout_as_nanos(conn) / 1e9f] becomes
    the period of the retransmission timer, which is re-armed. *)
Definition rearm_timer (st : state) : state :=
  let t := timeout_seconds (to_u64 (quiche_conn_timeout_as_nanos (world st))) in
  let c := io st in
  set_io (ConnIo (ev_timer_again (set_repeat t (timer c)))
                 (request c) (close c) (request_id c)) st.

Definition flush_egress (fuel : nat) (st : state) : option state :=
  match flush_loop fuel st with
  | None => None
  | Some (Returned, st1) => Some st1
  | Some (Break, st1) => Some (rearm_timer st1)
  end.

Definition flushed (r : option state) : outcome :=
  match r with
  | None => Diverge
  | Some st => Return st
  end.

(** *** [recv_cb] *)

Fixpoint recv_loop (fuel : nat) (st : state) : option (loop_exit * state) :=
  match fuel with
  | O => None
  | S fuel' =>
    let '((read, errno), w1) := recv (world st) in
    let st1 := log (SockRecv read errno) (set_world w1 st) in
    if read <? 0 then
      if (errno =? EWOULDBLOCK) || (errno =? EAGAIN)
      then Some (Break, st1)
      else Some (Returned, st1)
    else
      let '(done, w2) := quiche_conn_recv read (world st1) in
      let st2 := log (ConnRecv read done) (set_world w2 st1) in
      if done =? QUICHE_ERR_DONE then Some (Break, st2)
      else if done <? 0 then Some (Returned, st2)
      else recv_loop fuel' st2
  end.

(** The [while (quiche_readable_next(iter, &s))] loop, over the stream
    identifiers the iterator yields. *)
Fixpoint read_streams (iter : list Z) (st : state) : state :=
  match iter with
  | [] => st
  | s0 :: rest =>
    let s := to_u64 s0 in
    let '((recv_len, fin), w1) := quiche_conn_stream_recv s (world st) in
    let st1 := log (StreamRecv s recv_len fin) (set_world w1 st) in
    if recv_len <? 0 then st1
    else
      let st2 := print (Payload (to_int recv_len)) st1 in
      let st3 := if fin then stamp set_end (wrap_index (s / 4)) st2 else st2 in
      read_streams rest st3
  end.

Definition recv_cb (fuel : nat) (st : state) : outcome :=
  match recv_loop fuel st with
  | None => Diverge
  | Some (Returned, st1) => Return st1
  | Some (Break, st1) =>
    if quiche_conn_is_closed (world st1) then Return (ev_break st1)
    else
      let st2 :=
        if quiche_conn_is_established (world st1)
        then read_streams (quiche_conn_readable (world st1)) st1
        else st1 in
      flushed (flush_egress fuel st2)
  end.

(** *** [request_cb] *)

(** Lines 181-192: the guarded stream write.  [inl] is the [return] of the
    failure branch, [inr] falls through to the timer code.  The counter is
    passed as the stream identifier as it is: it is never negative (see
    [inv]), so its conversion to [uint64_t] changes nothing. *)
Definition request_issue (st : state) : state + state :=
  let id := request_id (io st) in
  if quiche_conn_is_established (world st) && (id <=? 4 * N) then
    let '(ret, w1) := quiche_conn_stream_send id (world st) in
    let result := to_int ret in
    let st1 := log (StreamSend id result) (set_world w1 st) in
    if result <? 0 then inl st1
    else
      let st2 := stamp set_begin (Z.quot id 4) st1 in
      let c := io st2 in
      inr (set_io (ConnIo (timer c) (request c) (close c) (to_int (id + 4)))
                  st2)
  else inr st.

(** Lines 194-201: the choice between the grace timer and the cadence
    timer. *)
Definition request_timers (st : state) : state :=
  let c := io st in
  if 4 * N <? request_id c then
    set_io (ConnIo (timer c) (ev_timer_stop (request c))
                   (ev_timer_again (set_repeat double_1 (close c)))
                   (request_id c)) st
  else
    set_io (ConnIo (timer c) (ev_timer_again (set_repeat double_0_1 (request c)))
                   (close c) (request_id c)) st.

Definition request_cb (fuel : nat) (st : state) : outcome :=
  match request_issue st with
  | inl st1 => Return st1
  | inr st1 => flushed (flush_egress fuel (request_timers st1))
  end.

(** *** [timeout_cb] *)

Definition timeout_cb (fuel : nat) (st : state) : outcome :=
  let st1 := log OnTimeout (set_world (quiche_conn_on_timeout (world st)) st) in
  match flush_egress fuel st1 with
  | None => Diverge
  | Some st2 =>
    if quiche_conn_is_closed (world st2) then Return (ev_break st2)
    else Return st2
  end.

(** *** [close_cb] *)

(** [1000 * (tm2.tv_sec - tm1.tv_sec) + (tm2.tv_usec - tm1.tv_usec) / 1000]
    stored in an [unsigned long long]. *)
Definition latency (f : fct) : Z :=
  to_u64 (1000 * (tv_sec (end_ f) - tv_sec (begin f))
          + Z.quot (tv_usec (end_ f) - tv_usec (begin f)) 1000).

Definition report_line (l : list fct) (i : Z) : output :=
  Report i (to_i64 (latency (nth (Z.to_nat i) l fct_zero))).

(** [for (int i = 0; i < N; i++)], with [n] iterations left. *)
Fixpoint report_loop (n : nat) (i : Z) (st : state) : state :=
  match n with
  | O => st
  | S n' => report_loop n' (i + 1) (print (report_line (fcts st) i) st)
  end.

Definition close_cb (st : state) : outcome :=
  let st1 := report_loop (Z.to_nat N) 0 st in
  let '(ret, w1) := quiche_conn_close (world st1) in
  let st2 := log (ConnClose ret) (set_world w1 st1) in
  if ret <? 0 then Exit (-1) st2 else Exit 0 st2.

(** *** [main] and the event loop *)

(** Lines 327-353: the connection context, the zeroed ledger and the
    timers; only the cadence timer is started, with a period of 0.1 s.
    The periods of the other two are not set here; they are written
    before the timers are first armed, and stand at 0 until then. *)
Definition main_init (w : W) : state :=
  State w
        (ConnIo (EvTimer false double_0)
                (ev_timer_again (EvTimer false double_0_1))
                (EvTimer false double_0)
                4)
        (replicate (Z.to_nat N) fct_zero) [] [] [] false.

(** Line 355: the first flush, after which [main] enters [ev_loop]. *)
Definition main (fuel : nat) (w : W) : option state :=
  flush_egress fuel (main_init w).

(** The stimuli of the event loop. *)
Inductive event := SockReadable | TimerExpired | RequestExpired | CloseExpired.

(** One iteration of the loop: a timer callback runs only for an active
    timer. *)
Definition dispatch (fuel : nat) (ev : event) (st : state) : outcome :=
  match ev with
  | SockReadable => recv_cb fuel st
  | TimerExpired =>
    if active (timer (io st)) then timeout_cb fuel st else Return st
  | RequestExpired =>
    if active (request (io st)) then request_cb fuel st else Return st
  | CloseExpired =>
    if active (close (io st)) then close_cb st else Return st
  end.

(** [ev_loop] over a finite sequence of stimuli, each with the fuel of its
    callback.  After [ev_break] the loop ends and [main] returns 0. *)
Fixpoint ev_loop (evs : list (event * nat)) (st : state) : outcome :=
  match evs with
  | [] => Return st
  | (ev, fuel) :: rest =>
    match dispatch fuel ev st with
    | Return st' => if broken st' then Exit 0 st' else ev_loop rest st'
    | o => o
    end
  end.

(** The states in which the event loop can be waiting. *)
Inductive reachable : state -> Prop :=
| reach_main fuel w st :
    main fuel w = Some st -> reachable st
| reach_step fuel ev st st' :
    reachable st -> dispatch fuel ev st = Return st' -> reachable st'.

(** The stream identifiers of the requests issued so far (stream writes
    that did not fail), oldest first. *)
Fixpoint issued (cs : list call) : list Z :=
  match cs with
  | [] => []
  | StreamSend s ret :: cs' =>
    if ret <? 0 then issued cs' else issued cs' ++ [s]
  | _ :: cs' => issued cs'
  end.

(** The streams read so far, with the result of each read, oldest first. *)
Fixpoint stream_reads (cs : list call) : list (Z * Z) :=
  match cs with
  | [] => []
  | StreamRecv s ret _ :: cs' => stream_reads cs' ++ [(s, ret)]
  | _ :: cs' => stream_reads cs'
  end.

(** The number of packets the engine was asked for. *)
Fixpoint packets_requested (cs : list call) : nat :=
  match cs with
  | [] => O
  | ConnSend _ :: cs' => S (packets_requested cs')
  | _ :: cs' => packets_requested cs'
  end.

End Driver.

Arguments state W : clear implicits.
Arguments outcome W : clear implicits.

(** ** A scripted world

    A deterministic implementation of [World], given by the answers it
    will hand out: it runs the driver on concrete inputs. *)

Record script := Script {
  sc_packets : list Z;          (* results of quiche_conn_send; then "done" *)
  sc_sends : list Z;            (* results of send; then the whole datagram *)
  sc_datagrams : list (Z * Z);  (* results of recv with errno; then would-block *)
  sc_established : bool;
  sc_closed : bool;
  sc_readable : list Z;         (* the readable streams *)
  sc_streams : list (Z * (Z * bool)); (* per stream: result of reading it *)
  sc_stream_sends : list Z;     (* results of quiche_conn_stream_send; then sizeof_r *)
  sc_close : Z;                 (* result of quiche_conn_close *)
  sc_timeout : Z;
  sc_clock : Z                  (* seconds; advances by one at each reading *)
}.

Definition sc_conn_send (w : script) : Z * script :=
  match sc_packets w with
  | [] => (QUICHE_ERR_DONE, w)
  | p :: ps =>
    (p, Script ps (sc_sends w) (sc_datagrams w) (sc_established w)
               (sc_closed w) (sc_readable w) (sc_streams w)
               (sc_stream_sends w) (sc_close w) (sc_timeout w) (sc_clock w))
  end.

Definition sc_send (len : Z) (w : script) : Z * script :=
  match sc_sends w with
  | [] => (len, w)
  | r :: rs =>
    (r, Script (sc_packets w) rs (sc_datagrams w) (sc_established w)
               (sc_closed w) (sc_readable w) (sc_streams w)
               (sc_stream_sends w) (sc_close w) (sc_timeout w) (sc_clock w))
  end.

Definition sc_recv (w : script) : (Z * Z) * script :=
  match sc_datagrams w with
  | [] => ((-1, EAGAIN), w)
  | d :: ds =>
    (d, Script (sc_packets w) (sc_sends w) ds (sc_established w)
               (sc_closed w) (sc_readable w) (sc_streams w)
               (sc_stream_sends w) (sc_close w) (sc_timeout w) (sc_clock w))
  end.

Fixpoint sc_lookup (s : Z) (l : list (Z * (Z * bool))) : Z * bool :=
  match l with
  | [] => (QUICHE_ERR_DONE, false)
  | (s', d) :: l' => if s =? s' then d else sc_lookup s l'
  end.

Definition sc_stream_send (id : Z) (w : script) : Z * script :=
  match sc_stream_sends w with
  | [] => (sizeof_r, w)
  | r :: rs =>
    (r, Script (sc_packets w) (sc_sends w) (sc_datagrams w) (sc_established w)
               (sc_closed w) (sc_readable w) (sc_streams w)
               rs (sc_close w) (sc_timeout w) (sc_clock w))
  end.

Definition sc_gettimeofday (w : script) : timeval * script :=
  (Timeval (sc_clock w) 0,
   Script (sc_packets w) (sc_sends w) (sc_datagrams w) (sc_established w)
          (sc_closed w) (sc_readable w) (sc_streams w)
          (sc_stream_sends w) (sc_close w) (sc_timeout w) (sc_clock w + 1)).

#[export] Instance script_world : World script := {
  quiche_conn_send := sc_conn_send;
  send := sc_send;
  recv := sc_recv;
  quiche_conn_recv := fun len w => (len, w);
  quiche_conn_is_closed := sc_closed;
  quiche_conn_is_established := sc_established;
  quiche_conn_readable := sc_readable;
  quiche_conn_stream_recv := fun s w => (sc_lookup s (sc_streams w), w);
  quiche_conn_stream_send := sc_stream_send;
  quiche_conn_close := fun w => (sc_close w, w);
  quiche_conn_on_timeout := fun w => w;
  quiche_conn_timeout_as_nanos := sc_timeout;
  gettimeofday := sc_gettimeofday
}.

(** An established connection on which every call succeeds and no response
    ever arrives; the clock starts at 100 s. *)
Definition quiet : script :=
  Script [] [] [] true false [] [] [] 0 25000000 100.

(** [n] firings of the cadence timer. *)
Definition ticks (n : nat) : list (event * nat) :=
  replicate n (RequestExpired, 1%nat).

(** The state in which [main] enters the event loop. *)
Definition started (w : script) : state script :=
  match main 8 w with
  | Some st => st
  | None => main_init w
  end.

(** ** Classifying calls *)

(** A socket send that wrote another number of bytes than asked. *)
Definition short_send (c : call) : bool :=
  match c with
  | SockSend len ret => negb (ret =? len)
  | _ => false
  end.

(** A socket receive that failed with something else than would-block. *)
Definition fatal_recv (c : call) : bool :=
  match c with
  | SockRecv ret errno =>
    (ret <? 0) && negb ((errno =? EWOULDBLOCK) || (errno =? EAGAIN))
  | _ => false
  end.

(** The calls [flush_egress] makes. *)
Definition flush_call (c : call) : bool :=
  match c with
  | ConnSend _ | SockSend _ _ => true
  | _ => false
  end.

(** The calls of the datagram loop of [recv_cb]. *)
Definition ingress_call (c : call) : bool :=
  match c with
  | SockRecv _ _ | ConnRecv _ _ => true
  | _ => false
  end.

Definition stream_recv_call (c : call) : bool :=
  match c with
  | StreamRecv _ _ _ => true
  | _ => false
  end.

(** A stream read that reported fin on a stream whose ledger entry is
    slot 0: one of the streams 0..3, or one whose index [s / 4] is another
    multiple of 2^59. *)
Definition fin_on_slot0 (c : call) : bool :=
  match c with
  | StreamRecv s _ fin => fin && (wrap_index (s / 4) =? 0)
  | _ => false
  end.

(** ** Properties of the driver, for every world *)

Section Properties.

Context {W : Type} {ops : World W}.

Implicit Types (st : state W) (fuel : nat) (cs : list call).

(** What the loops that only talk to the engine and the socket leave
    alone: the connection context, the ledger and the output. *)
Definition same_driver st st' : Prop :=
  io st' = io st /\ fcts st' = fcts st /\ stray st' = stray st /\
  stdout st' = stdout st /\ broken st' = broken st.

(** The calls a piece of code added: [calls st' = new ++ calls st], all of
    them of one kind. *)
Definition added (kind : call -> bool) st st' (new : list call) : Prop :=
  calls st' = new ++ calls st /\ forallb kind new = true.

(** *** The flusher *)

Lemma flush_loop_frame fuel : forall st x st',
  flush_loop fuel st = Some (x, st') -> same_driver st st'.
Proof.
  induction fuel as [|fuel IH]; intros st x st' H; simpl in H; [discriminate|].
  destruct (quiche_conn_send (world st)) as [written w1].
  destruct (written =? QUICHE_ERR_DONE).
  { inversion H; subst. repeat split. }
  destruct (written <? 0).
  { inversion H; subst. repeat split. }
  simpl in H. destruct (send written w1) as [sent w2].
  destruct (negb (sent =? written)).
  { inversion H; subst. repeat split. }
  apply IH in H. exact H.
Qed.

(** The loop asks the engine for at least one packet; no call follows a
    short send; a loop left by [break] saw no short send at all. *)
Lemma flush_loop_calls fuel : forall st x st',
  flush_loop fuel st = Some (x, st') ->
  exists c new, added flush_call st st' (c :: new) /\
    existsb short_send new = false /\
    (x = Break -> short_send c = false).
Proof.
  induction fuel as [|fuel IH]; intros st x st' H; simpl in H; [discriminate|].
  destruct (quiche_conn_send (world st)) as [written w1].
  destruct (written =? QUICHE_ERR_DONE).
  { inversion H; subst. exists (ConnSend written), []. repeat split. }
  destruct (written <? 0).
  { inversion H; subst. exists (ConnSend written), []. repeat split. }
  simpl in H. destruct (send written w1) as [sent w2].
  destruct (negb (sent =? written)) eqn:Hs.
  { inversion H; subst. exists (SockSend written sent), [ConnSend written].
    repeat split. discriminate. }
  apply IH in H. destruct H as (c & new & [Hc Hk] & Hn & Hb). simpl in Hc.
  exists c, (new ++ [SockSend written sent; ConnSend written]). repeat split.
  - simpl. rewrite Hc. rewrite <- app_assoc. reflexivity.
  - simpl in *. rewrite forallb_app. apply andb_true_iff in Hk as [-> ->].
    reflexivity.
  - rewrite existsb_app, Hn. simpl. rewrite Hs. reflexivity.
  - exact Hb.
Qed.

(** The flusher touches nothing of the driver but the retransmission
    timer. *)
Definition same_schedule st st' : Prop :=
  request_id (io st') = request_id (io st) /\
  request (io st') = request (io st) /\ close (io st') = close (io st) /\
  fcts st' = fcts st /\ stray st' = stray st /\ stdout st' = stdout st /\
  broken st' = broken st.

Lemma same_driver_schedule st st' : same_driver st st' -> same_schedule st st'.
Proof.
  intros (a1 & a2 & a3 & a4 & a5). unfold same_schedule. rewrite a1.
  repeat split; assumption.
Qed.

Lemma flush_egress_frame fuel st st' :
  flush_egress fuel st = Some st' -> same_schedule st st'.
Proof.
  unfold flush_egress. intros H.
  destruct (flush_loop fuel st) as [[[] st1]|] eqn:E; inversion H; subst.
  - apply flush_loop_frame in E. apply same_driver_schedule in E.
    destruct E as (a1 & a2 & a3 & a4 & a5 & a6 & a7).
    repeat split; simpl; assumption.
  - apply flush_loop_frame in E. apply same_driver_schedule, E.
Qed.

Lemma flush_egress_calls fuel st st' :
  flush_egress fuel st = Some st' ->
  exists c new, added flush_call st st' (c :: new) /\
    existsb short_send new = false /\
    (short_send c = true -> io st' = io st).
Proof.
  unfold flush_egress. intros H.
  destruct (flush_loop fuel st) as [[[] st1]|] eqn:E; inversion H; subst.
  - apply flush_loop_calls in E. destruct E as (c & new & Ha & Hn & Hb).
    exists c, new. repeat split; try apply Ha; try assumption.
    intros Hc. rewrite Hb in Hc; [discriminate|reflexivity].
  - pose proof (flush_loop_frame _ _ _ _ E) as (Hio & _).
    apply flush_loop_calls in E. destruct E as (c & new & Ha & Hn & Hb).
    exists c, new. repeat split; try apply Ha; try assumption.
    intros _. exact Hio.
Qed.

(** *** Lists of calls *)

Definition no_stream_send (c : call) : bool :=
  match c with
  | StreamSend _ _ => false
  | _ => true
  end.

Definition no_stream_recv (c : call) : bool :=
  match c with
  | StreamRecv _ _ _ => false
  | _ => true
  end.

Lemma forallb_weaken (k1 k2 : call -> bool) cs :
  (forall c, k1 c = true -> k2 c = true) ->
  forallb k1 cs = true -> forallb k2 cs = true.
Proof.
  intros Hk. induction cs as [|c cs IH]; simpl; [reflexivity|].
  intros H. apply andb_true_iff in H as [Hc Hcs].
  rewrite (Hk _ Hc), (IH Hcs). reflexivity.
Qed.

Lemma issued_app new cs :
  forallb no_stream_send new = true -> issued (new ++ cs) = issued cs.
Proof.
  induction new as [|c new IH]; simpl; [reflexivity|].
  intros H. apply andb_true_iff in H as [Hc Hn].
  destruct c; simpl in *; try discriminate; auto.
Qed.

Lemma stream_reads_app new cs :
  forallb no_stream_recv new = true ->
  stream_reads (new ++ cs) = stream_reads cs.
Proof.
  induction new as [|c new IH]; simpl; [reflexivity|].
  intros H. apply andb_true_iff in H as [Hc Hn].
  destruct c; simpl in *; try discriminate; auto.
Qed.

Lemma fin_on_slot0_app new cs :
  forallb no_stream_recv new = true ->
  existsb fin_on_slot0 (new ++ cs) = existsb fin_on_slot0 cs.
Proof.
  induction new as [|c new IH]; simpl; [reflexivity|].
  intros H. apply andb_true_iff in H as [Hc Hn].
  destruct c; simpl in *; try discriminate; auto.
Qed.

Lemma flush_call_quiet c :
  flush_call c = true -> no_stream_send c = true /\ no_stream_recv c = true.
Proof. destruct c; simpl; intros; try discriminate; auto. Qed.

Lemma ingress_call_quiet c :
  ingress_call c = true -> no_stream_send c = true /\ no_stream_recv c = true.
Proof. destruct c; simpl; intros; try discriminate; auto. Qed.

(** Calls of a kind that is neither a stream write nor a stream read leave
    the issued requests and the stream reads as they are. *)
Lemma added_quiet kind st st' new :
  (forall c, kind c = true ->
             no_stream_send c = true /\ no_stream_recv c = true) ->
  added kind st st' new ->
  issued (calls st') = issued (calls st) /\
  stream_reads (calls st') = stream_reads (calls st) /\
  existsb fin_on_slot0 (calls st') = existsb fin_on_slot0 (calls st).
Proof.
  intros Hk [-> Hn].
  rewrite issued_app, stream_reads_app, fin_on_slot0_app; auto;
    eapply forallb_weaken; try exact Hn; intros c Hc; apply Hk, Hc.
Qed.

(** *** The datagram loop of [recv_cb] *)

Lemma recv_loop_frame fuel : forall st x st',
  recv_loop fuel st = Some (x, st') -> same_driver st st'.
Proof.
  induction fuel as [|fuel IH]; intros st x st' H; simpl in H; [discriminate|].
  destruct (recv (world st)) as [[read errno] w1].
  destruct (read <? 0).
  { destruct ((errno =? EWOULDBLOCK) || (errno =? EAGAIN));
      inversion H; subst; repeat split. }
  simpl in H. destruct (quiche_conn_recv read w1) as [done w2].
  destruct (done =? QUICHE_ERR_DONE).
  { inversion H; subst. repeat split. }
  destruct (done <? 0).
  { inversion H; subst. repeat split. }
  apply IH in H. exact H.
Qed.

(** No call follows a fatal receive error, and a loop left by [break] saw
    none. *)
Lemma recv_loop_calls fuel : forall st x st',
  recv_loop fuel st = Some (x, st') ->
  exists c new, added ingress_call st st' (c :: new) /\
    existsb fatal_recv new = false /\
    (x = Break -> fatal_recv c = false).
Proof.
  induction fuel as [|fuel IH]; intros st x st' H; simpl in H; [discriminate|].
  destruct (recv (world st)) as [[read errno] w1].
  destruct (read <? 0) eqn:Hr.
  { destruct ((errno =? EWOULDBLOCK) || (errno =? EAGAIN)) eqn:He;
      inversion H; subst; exists (SockRecv read errno), [];
      repeat split; simpl; try discriminate.
    rewrite Hr, He. reflexivity. }
  simpl in H. destruct (quiche_conn_recv read w1) as [done w2].
  destruct (done =? QUICHE_ERR_DONE).
  { inversion H; subst. exists (ConnRecv read done), [SockRecv read errno].
    repeat split. simpl. rewrite Hr. reflexivity. }
  destruct (done <? 0).
  { inversion H; subst. exists (ConnRecv read done), [SockRecv read errno].
    repeat split. simpl. rewrite Hr. reflexivity. }
  apply IH in H. destruct H as (c & new & [Hc Hk] & Hn & Hb). simpl in Hc.
  exists c, (new ++ [ConnRecv read done; SockRecv read errno]). repeat split.
  - simpl. rewrite Hc. rewrite <- app_assoc. reflexivity.
  - simpl in *. rewrite forallb_app. apply andb_true_iff in Hk as [-> ->].
    reflexivity.
  - rewrite existsb_app, Hn. simpl. rewrite Hr. reflexivity.
  - exact Hb.
Qed.

(** *** The ledger *)

(** What a store into the ledger keeps of slot 0: the capacity, the begin
    timestamp and, unless the store [touched] it, the end timestamp. *)
Definition slot0_kept (touched : bool) (l l' : list fct) : Prop :=
  length l' = length l /\
  forall f', l' !! 0%nat = Some f' ->
    exists f, l !! 0%nat = Some f /\ begin f' = begin f /\
              (touched = false -> end_ f' = end_ f).

Lemma slot0_kept_refl l : slot0_kept false l l.
Proof. split; [reflexivity|]. intros f' Hf. exists f'. auto. Qed.

Lemma slot0_kept_trans t1 t2 l1 l2 l3 :
  slot0_kept t1 l1 l2 -> slot0_kept t2 l2 l3 -> slot0_kept (t1 || t2) l1 l3.
Proof.
  intros [L1 K1] [L2 K2]. split; [congruence|].
  intros f3 H3. destruct (K2 _ H3) as (f2 & H2 & B2 & E2).
  destruct (K1 _ H2) as (f1 & H1 & B1 & E1).
  exists f1. repeat split; [assumption|congruence|].
  intros Ht. apply orb_false_iff in Ht as [T1 T2].
  rewrite (E2 T2). apply (E1 T1).
Qed.

(** Recording an end timestamp. *)
Lemma stamp_end_spec i st :
  io (stamp set_end i st) = io st /\
  calls (stamp set_end i st) = calls st /\
  stdout (stamp set_end i st) = stdout st /\
  broken (stamp set_end i st) = broken st /\
  slot0_kept (i =? 0) (fcts st) (fcts (stamp set_end i st)).
Proof.
  unfold stamp. destruct (gettimeofday (world st)) as [now w].
  unfold ledger_write.
  destruct ((0 <=? i) && (i <? N)) eqn:Hi; simpl;
    repeat split; try apply length_alter; try apply slot0_kept_refl.
  - intros f' Hf'. apply andb_true_iff in Hi as [H0 HN].
    apply Z.leb_le in H0.
    destruct (Z.eqb_spec i 0) as [->|Hne].
    + change (Z.to_nat 0) with 0%nat in Hf'.
      rewrite list_lookup_alter_eq in Hf'.
      destruct (fcts st !! 0%nat) as [f|] eqn:Hf; simpl in Hf';
        [|discriminate Hf'].
      inversion Hf'; subst. exists f.
      split; [reflexivity|]. split; [reflexivity|]. intros Ht. discriminate Ht.
    + rewrite list_lookup_alter_ne in Hf' by lia. exists f'. auto.
  - intros f' Hf'. exists f'. auto.
Qed.

(** Recording a begin timestamp anywhere but in slot 0. *)
Lemma stamp_begin_spec i st :
  i <> 0 ->
  io (stamp set_begin i st) = io st /\
  calls (stamp set_begin i st) = calls st /\
  stdout (stamp set_begin i st) = stdout st /\
  broken (stamp set_begin i st) = broken st /\
  length (fcts (stamp set_begin i st)) = length (fcts st) /\
  fcts (stamp set_begin i st) !! 0%nat = fcts st !! 0%nat.
Proof.
  intros Hne. unfold stamp. destruct (gettimeofday (world st)) as [now w].
  unfold ledger_write.
  destruct ((0 <=? i) && (i <? N)) eqn:Hi; simpl;
    repeat split; try apply length_alter.
  apply andb_true_iff in Hi as [H0 HN]. apply Z.leb_le in H0.
  apply list_lookup_alter_ne. lia.
Qed.

(** *** The stream loop of [recv_cb] *)

(** One successful stream read: [printf] is called and, on fin, the end
    timestamp is stored at [s / 4]. *)
Lemma stream_step_spec st s recv_len fin w1 :
  let st2 := print (Payload (to_int recv_len))
                   (log (StreamRecv s recv_len fin) (set_world w1 st)) in
  let st3 := if fin then stamp set_end (wrap_index (s / 4)) st2 else st2 in
  io st3 = io st /\ broken st3 = broken st /\
  calls st3 = StreamRecv s recv_len fin :: calls st /\
  slot0_kept (fin && (wrap_index (s / 4) =? 0)) (fcts st) (fcts st3).
Proof.
  intros st2 st3. subst st3. destruct fin.
  - destruct (stamp_end_spec (wrap_index (s / 4)) st2)
      as (a1 & a2 & a3 & a4 & a5).
    rewrite a1, a2, a4. repeat split; apply a5.
  - repeat split. intros f' Hf. exists f'. auto.
Qed.

Lemma read_streams_frame iter : forall st,
  io (read_streams iter st) = io st /\
  broken (read_streams iter st) = broken st /\
  exists new, added stream_recv_call st (read_streams iter st) new /\
    slot0_kept (existsb fin_on_slot0 new)
               (fcts st) (fcts (read_streams iter st)).
Proof.
  induction iter as [|s0 rest IH]; intros st; simpl.
  { repeat split. exists []. repeat split. intros f' Hf. exists f'. auto. }
  destruct (quiche_conn_stream_recv (to_u64 s0) (world st))
    as [[recv_len fin] w1].
  destruct (recv_len <? 0).
  { repeat split. exists [StreamRecv (to_u64 s0) recv_len fin].
    repeat split. intros f' Hf. exists f'. auto. }
  destruct (stream_step_spec st (to_u64 s0) recv_len fin w1)
    as (b1 & b2 & b3 & b4).
  match goal with |- context [read_streams rest ?s] => set (st3 := s) in * end.
  destruct (IH st3) as (Hio & Hbr & new & [Hc Hk] & Hs).
  repeat split; [congruence|congruence|].
  exists (new ++ [StreamRecv (to_u64 s0) recv_len fin]).
  split; [split|].
  - rewrite Hc, b3. rewrite <- app_assoc. reflexivity.
  - rewrite forallb_app, Hk. reflexivity.
  - rewrite existsb_app. simpl. rewrite orb_false_r, orb_comm.
    eapply slot0_kept_trans; eassumption.
Qed.

(** The reads of one pass are the streams of the iterator up to and
    including the first one whose read fails. *)
Lemma read_streams_reads iter : forall st,
  exists rs,
    stream_reads (calls (read_streams iter st)) = stream_reads (calls st) ++ rs /\
    map fst rs = take (length rs) (map to_u64 iter) /\
    (forall (k : nat) s r, rs !! k = Some (s, r) -> r < 0 -> S k = length rs) /\
    ((length rs < length iter)%nat -> exists s r, last rs = Some (s, r) /\ r < 0).
Proof.
  induction iter as [|s0 rest IH]; intros st; simpl.
  { exists []. rewrite app_nil_r. repeat split.
    - intros k s r Hk. discriminate.
    - simpl. lia. }
  destruct (quiche_conn_stream_recv (to_u64 s0) (world st))
    as [[recv_len fin] w1].
  destruct (recv_len <? 0) eqn:Hr.
  { exists [(to_u64 s0, recv_len)]. repeat split.
    - intros [|k] s r Hk; [reflexivity|discriminate].
    - intros _. exists (to_u64 s0), recv_len. split; [reflexivity|].
      apply Z.ltb_lt, Hr. }
  destruct (stream_step_spec st (to_u64 s0) recv_len fin w1)
    as (_ & _ & H3 & _).
  match goal with |- context [read_streams rest ?s] => set (st3 := s) in * end.
  destruct (IH st3) as (rs & Hrs & Hpre & Herr & Hshort).
  exists ((to_u64 s0, recv_len) :: rs). repeat split.
  - rewrite Hrs, H3. simpl. rewrite <- app_assoc. reflexivity.
  - simpl. rewrite Hpre. reflexivity.
  - intros [|k] s r Hk Hneg; simpl in Hk.
    + inversion Hk; subst. apply Z.ltb_ge in Hr. lia.
    + simpl. f_equal. eapply Herr; eassumption.
  - simpl. intros Hlt. destruct Hshort as (s & r & Hl & Hneg); [lia|].
    exists s, r. split; [|assumption].
    destruct rs; [discriminate|exact Hl].
Qed.

(** *** The invariant of the event loop *)

(** The identifiers 4, 8, ..., 4n. *)
Definition stride_ids (n : nat) : list Z :=
  map (fun k => 4 + 4 * Z.of_nat k) (seq 0 n).

(** [n] requests were issued, on the streams 4, 8, ..., 4n, the counter
    stands at the next one, at most [N] were issued; the ledger has [N]
    slots, and slot 0 has no begin timestamp, and no end timestamp either
    unless a stream below 4 was read to its fin. *)
Definition inv st : Prop :=
  exists n : nat, Z.of_nat n <= N /\
    request_id (io st) = 4 + 4 * Z.of_nat n /\
    issued (calls st) = stride_ids n /\
    length (fcts st) = Z.to_nat N /\
    forall f, fcts st !! 0%nat = Some f ->
      begin f = tv_zero /\
      (existsb fin_on_slot0 (calls st) = false -> end_ f = tv_zero).

Lemma to_int_small z : - 2 ^ 31 <= z < 2 ^ 31 -> to_int z = z.
Proof. intros Hz. unfold to_int. rewrite Z.mod_small; lia. Qed.

Lemma stride_ids_S n : stride_ids (S n) = stride_ids n ++ [4 + 4 * Z.of_nat n].
Proof. unfold stride_ids. rewrite seq_S, map_app. reflexivity. Qed.

Lemma inv_main_init (w : W) : inv (main_init w).
Proof.
  exists 0%nat. unfold N. simpl. repeat split; try lia.
  - inversion H; subst. reflexivity.
  - inversion H; subst. reflexivity.
Qed.

Lemma inv_quiet kind st st' new :
  (forall c, kind c = true ->
             no_stream_send c = true /\ no_stream_recv c = true) ->
  same_schedule st st' -> added kind st st' new -> inv st -> inv st'.
Proof.
  intros Hk (a1 & a2 & a3 & a4 & a5 & a6 & a7) Ha (n & Hn & Hid & His & Hl & H0).
  destruct (added_quiet _ _ _ _ Hk Ha) as (q1 & q2 & q3).
  exists n. rewrite a1, a4, q1, q3. auto.
Qed.

Lemma inv_ev_break st : inv st -> inv (ev_break st).
Proof. intros H. exact H. Qed.

Lemma inv_flush_egress fuel st st' :
  flush_egress fuel st = Some st' -> inv st -> inv st'.
Proof.
  intros H. pose proof (flush_egress_frame _ _ _ H) as Hf.
  apply flush_egress_calls in H as (c & new & Ha & _).
  eapply inv_quiet; eauto using flush_call_quiet.
Qed.

Lemma inv_recv_loop fuel st x st' :
  recv_loop fuel st = Some (x, st') -> inv st -> inv st'.
Proof.
  intros H. pose proof (recv_loop_frame _ _ _ _ H) as Hf.
  apply same_driver_schedule in Hf.
  apply recv_loop_calls in H as (c & new & Ha & _).
  eapply inv_quiet; eauto using ingress_call_quiet.
Qed.

Lemma stream_recv_call_no_send c :
  stream_recv_call c = true -> no_stream_send c = true.
Proof. destruct c; simpl; auto. Qed.

Lemma existsb_fin_app new cs :
  existsb fin_on_slot0 (new ++ cs) = false ->
  existsb fin_on_slot0 new = false /\ existsb fin_on_slot0 cs = false.
Proof. rewrite existsb_app. apply orb_false_iff. Qed.

Lemma inv_read_streams iter st : inv st -> inv (read_streams iter st).
Proof.
  intros (n & Hn & Hid & His & Hl & H0).
  destruct (read_streams_frame iter st)
    as (Hio & _ & new & [Hc Hk] & [Hlen Hs]).
  exists n. rewrite Hio, Hc, Hlen.
  rewrite issued_app
    by (eapply forallb_weaken; [apply stream_recv_call_no_send|exact Hk]).
  repeat split; try assumption.
  - destruct (Hs _ H) as (f0 & Hf0 & Hb & _). rewrite Hb. apply (H0 _ Hf0).
  - intros He. apply existsb_fin_app in He as [He1 He2].
    destruct (Hs _ H) as (f0 & Hf0 & _ & Hend).
    rewrite (Hend He1). apply (H0 _ Hf0), He2.
Qed.

(** The guarded stream write: a failed write changes nothing of the
    invariant's, a successful one issues stream [4 + 4n] as request [n]. *)
Lemma inv_request_issue st st1 :
  (request_issue st = inl st1 \/ request_issue st = inr st1) ->
  inv st -> inv st1.
Proof.
  unfold request_issue. intros H (n & Hn & Hid & His & Hl & H0).
  destruct (quiche_conn_is_established (world st)
            && (request_id (io st) <=? 4 * N)) eqn:Hg.
  2:{ destruct H as [H|H]; inversion H; subst. exists n. auto. }
  apply andb_true_iff in Hg as [_ Hg]. apply Z.leb_le in Hg.
  destruct (quiche_conn_stream_send (request_id (io st)) (world st))
    as [ret w1].
  destruct (to_int ret <? 0) eqn:Hr.
  { destruct H as [H|H]; inversion H; subst. exists n. simpl. rewrite Hr.
    auto. }
  destruct H as [H|H]; inversion H; subst. clear H.
  match goal with |- context [stamp set_begin ?i ?s] =>
    assert (Hi : i <> 0);
    [|destruct (stamp_begin_spec i s Hi) as (a1 & a2 & a3 & a4 & a5 & a6)]
  end.
  { rewrite Hid. replace (4 + 4 * Z.of_nat n) with ((1 + Z.of_nat n) * 4) by lia.
    rewrite Z.quot_mul by lia. lia. }
  exists (S n). unfold N in *. simpl. rewrite a2, a5, a6. simpl. rewrite Hr.
  repeat split; try assumption; try lia.
  - rewrite to_int_small by lia. lia.
  - rewrite stride_ids_S, His, Hid. reflexivity.
  - apply (H0 _ H).
  - apply (H0 _ H).
Qed.

Lemma inv_request_timers st : inv st -> inv (request_timers st).
Proof.
  unfold request_timers. intros H.
  destruct (4 * N <? request_id (io st)); exact H.
Qed.

Lemma inv_recv_cb fuel st st' :
  recv_cb fuel st = Return st' -> inv st -> inv st'.
Proof.
  unfold recv_cb. intros H Hi.
  destruct (recv_loop fuel st) as [[[] st1]|] eqn:E; try discriminate.
  - apply (inv_recv_loop _ _ _ _ E) in Hi.
    destruct (quiche_conn_is_closed (world st1)).
    { inversion H; subst. apply inv_ev_break, Hi. }
    match type of H with flushed (flush_egress _ ?s) = _ =>
      destruct (flush_egress fuel s) as [st3|] eqn:F; [|discriminate];
      assert (Hi2 : inv s)
    end.
    { destruct (quiche_conn_is_established (world st1));
        [apply inv_read_streams|]; exact Hi. }
    inversion H; subst. eapply inv_flush_egress; eassumption.
  - inversion H; subst. eapply inv_recv_loop; eassumption.
Qed.

Lemma inv_request_cb fuel st st' :
  request_cb fuel st = Return st' -> inv st -> inv st'.
Proof.
  unfold request_cb. intros H Hi.
  destruct (request_issue st) as [st1|st1] eqn:E.
  - inversion H; subst. eapply inv_request_issue; eauto.
  - destruct (flush_egress fuel (request_timers st1)) as [st3|] eqn:F;
      [|discriminate].
    inversion H; subst. eapply inv_flush_egress; [eassumption|].
    apply inv_request_timers. eapply inv_request_issue; eauto.
Qed.

Lemma inv_timeout_cb fuel st st' :
  timeout_cb fuel st = Return st' -> inv st -> inv st'.
Proof.
  unfold timeout_cb. intros H Hi.
  match type of H with context [flush_egress _ ?s] =>
    destruct (flush_egress fuel s) as [st2|] eqn:F; [|discriminate];
    assert (Hi1 : inv s) by exact Hi
  end.
  apply (inv_flush_egress _ _ _ F) in Hi1.
  destruct (quiche_conn_is_closed (world st2)); inversion H; subst;
    [apply inv_ev_break|]; exact Hi1.
Qed.

(** [close_cb] always leaves the process. *)
Lemma close_cb_exits st : exists code st', close_cb st = Exit code st'.
Proof.
  unfold close_cb.
  destruct (quiche_conn_close (world (report_loop (Z.to_nat N) 0 st)))
    as [ret w1].
  destruct (ret <? 0); eauto.
Qed.

Lemma inv_dispatch fuel ev st st' :
  dispatch fuel ev st = Return st' -> inv st -> inv st'.
Proof.
  destruct ev; simpl.
  - apply inv_recv_cb.
  - destruct (active (timer (io st))); [apply inv_timeout_cb|].
    intros H; inversion H; subst; auto.
  - destruct (active (request (io st))); [apply inv_request_cb|].
    intros H; inversion H; subst; auto.
  - destruct (active (close (io st))).
    + destruct (close_cb_exits st) as (code & st2 & ->). discriminate.
    + intros H; inversion H; subst; auto.
Qed.

(** Every state in which the loop waits satisfies the invariant. *)
Lemma reachable_inv st : reachable st -> inv st.
Proof.
  induction 1 as [fuel w st Hm|fuel ev st st' _ IH Hd].
  - eapply inv_flush_egress; [exact Hm|apply inv_main_init].
  - eapply inv_dispatch; eassumption.
Qed.

Lemma ev_loop_reachable evs : forall st st',
  reachable st -> ev_loop evs st = Return st' -> reachable st'.
Proof.
  induction evs as [|[ev fuel] evs IH]; intros st st' Hr H; simpl in H.
  { inversion H; subst. exact Hr. }
  destruct (dispatch fuel ev st) as [st1| |] eqn:D; try discriminate.
  destruct (broken st1); [discriminate|].
  apply (IH st1); [|exact H]. eapply reach_step; eassumption.
Qed.

Lemma length_stride_ids n : length (stride_ids n) = n.
Proof. unfold stride_ids. rewrite length_map, length_seq. reflexivity. Qed.

Lemma lookup_stride_ids n (i : nat) id :
  stride_ids n !! i = Some id -> id = 4 + 4 * Z.of_nat i.
Proof.
  unfold stride_ids. intros H.
  change (map ?f ?l) with (f <$> l) in H.
  apply list_lookup_fmap_Some in H as (k & -> & Hk).
  apply lookup_seq in Hk as [-> _]. reflexivity.
Qed.

(** *** The request scheduler *)

(** C7. In every state the event loop can be in, the request counter
    stands at 4 plus 4 times the number of requests issued so far (it
    starts at 4 and advances by 4 with each request issued), and for every
    [i] below the budget the stream identifier used for the [i]-th issued
    request is [4 + 4 * i]. *)
Theorem request_ids_fixed_stride st :
  reachable st ->
  request_id (io st) = 4 + 4 * Z.of_nat (length (issued (calls st))) /\
  forall (i : nat) id,
    Z.of_nat i < N -> issued (calls st) !! i = Some id ->
    id = 4 + 4 * Z.of_nat i.
Proof.
  intros Hr. destruct (reachable_inv _ Hr) as (n & Hn & Hid & His & _).
  rewrite His, length_stride_ids. split; [exact Hid|].
  intros i id _. apply lookup_stride_ids.
Qed.

(** With the counter past [4 * N] the guarded write is skipped. *)
Lemma request_issue_closed st :
  4 * N < request_id (io st) -> request_issue st = inr st.
Proof.
  intros H. unfold request_issue.
  replace (request_id (io st) <=? 4 * N) with false
    by (symmetry; apply Z.leb_gt; exact H).
  rewrite andb_false_r. reflexivity.
Qed.

(** C8. However often the cadence timer fires, the number of requests
    issued never exceeds the budget [N]; and once [N] requests were
    issued, a further tick issues nothing. *)
Theorem issued_within_budget st :
  reachable st ->
  Z.of_nat (length (issued (calls st))) <= N /\
  (Z.of_nat (length (issued (calls st))) = N ->
   forall fuel st', request_cb fuel st = Return st' ->
                    issued (calls st') = issued (calls st)).
Proof.
  intros Hr. destruct (reachable_inv _ Hr) as (n & Hn & Hid & His & _).
  rewrite His, length_stride_ids. split; [exact Hn|].
  intros HN fuel st' H. unfold request_cb in H.
  rewrite request_issue_closed in H by lia.
  destruct (flush_egress fuel (request_timers st)) as [st2|] eqn:F;
    [|discriminate].
  inversion H; subst.
  apply flush_egress_calls in F as (c & new & Ha & _).
  destruct (added_quiet _ _ _ _ flush_call_quiet Ha) as (q & _).
  rewrite q. unfold request_timers.
  destruct (4 * N <? request_id (io st)); simpl; rewrite His; reflexivity.
Qed.

(** A tick on an established connection with the counter within
    [4 * N] attempts a write on the stream the counter names. *)
Lemma request_cb_attempt fuel st st' :
  quiche_conn_is_established (world st) = true ->
  request_id (io st) <= 4 * N ->
  request_cb fuel st = Return st' ->
  exists new ret,
    calls st' = new ++ StreamSend (request_id (io st)) ret :: calls st.
Proof.
  intros He Hg H. unfold request_cb, request_issue in H. rewrite He in H.
  replace (request_id (io st) <=? 4 * N) with true in H
    by (symmetry; apply Z.leb_le; exact Hg).
  simpl in H.
  destruct (quiche_conn_stream_send (request_id (io st)) (world st))
    as [ret w1].
  destruct (to_int ret <? 0).
  { inversion H; subst. exists [], (to_int ret). reflexivity. }
  match type of H with flushed (flush_egress _ ?s) = _ =>
    destruct (flush_egress fuel s) as [st3|] eqn:F; [|discriminate]
  end.
  inversion H; subst.
  apply flush_egress_calls in F as (c & new & [Hc _] & _).
  exists (c :: new), (to_int ret). rewrite Hc.
  match goal with |- context [stamp set_begin ?i ?s] =>
    set (i0 := i); set (s0 := s) end.
  assert (Hs : calls (stamp set_begin i0 s0) = calls s0).
  { unfold stamp. destruct (gettimeofday (world s0)) as [now w].
    unfold ledger_write. destruct ((0 <=? i0) && (i0 <? N)); reflexivity. }
  unfold request_timers. simpl.
  destruct (4 * N <? to_int (request_id (io st) + 4)); simpl; rewrite Hs;
    reflexivity.
Qed.

(** C6. When the stream write of a request tick returns a negative result,
    the handler returns with the connection context (the next stream
    identifier and the timers), the ledger and the issued requests as they
    were; so the next tick on the established connection writes to the
    same stream again. *)
Theorem request_cb_failed_write fuel st :
  quiche_conn_is_established (world st) = true ->
  request_id (io st) <= 4 * N ->
  to_int (fst (quiche_conn_stream_send (request_id (io st)) (world st))) < 0 ->
  exists st',
    request_cb fuel st = Return st' /\
    io st' = io st /\ fcts st' = fcts st /\ stray st' = stray st /\
    issued (calls st') = issued (calls st) /\
    forall fuel' st'',
      quiche_conn_is_established (world st') = true ->
      request_cb fuel' st' = Return st'' ->
      exists new ret,
        calls st'' = new ++ StreamSend (request_id (io st)) ret :: calls st'.
Proof.
  intros He Hg Hr.
  assert (H : exists st', request_cb fuel st = Return st' /\
     io st' = io st /\ fcts st' = fcts st /\ stray st' = stray st /\
     issued (calls st') = issued (calls st)).
  { unfold request_cb, request_issue. rewrite He.
    replace (request_id (io st) <=? 4 * N) with true
      by (symmetry; apply Z.leb_le; exact Hg).
    simpl.
    destruct (quiche_conn_stream_send (request_id (io st)) (world st))
      as [ret w1].
    simpl in Hr. apply Z.ltb_lt in Hr. rewrite Hr.
    eexists. split; [reflexivity|]. simpl. rewrite Hr. repeat split. }
  destruct H as (st' & H & Hio & Hf & Hs & Hi).
  exists st'. repeat split; try assumption.
  intros fuel' st'' He' H'. rewrite <- Hio.
  apply (request_cb_attempt fuel'); [exact He'|rewrite Hio; exact Hg|exact H'].
Qed.

(** *** The shutdown-grace handler *)

Lemma report_loop_spec n : forall i st,
  world (report_loop n i st) = world st /\
  io (report_loop n i st) = io st /\
  fcts (report_loop n i st) = fcts st /\
  stray (report_loop n i st) = stray st /\
  calls (report_loop n i st) = calls st /\
  stdout (report_loop n i st)
  = stdout st ++ map (report_line (fcts st)) (seqZ i (Z.of_nat n)).
Proof.
  induction n as [|n IH]; intros i st.
  { simpl. rewrite app_nil_r. repeat split. }
  cbn [report_loop].
  destruct (IH (i + 1) (print (report_line (fcts st) i) st))
    as (a1 & a2 & a3 & a4 & a5 & a6).
  rewrite a1, a2, a3, a4, a5, a6. repeat split.
  rewrite (seqZ_cons i (Z.of_nat (S n))) by lia.
  replace (Z.pred (Z.of_nat (S n))) with (Z.of_nat n) by lia.
  replace (Z.succ i) with (i + 1) by lia.
  simpl. rewrite <- app_assoc. reflexivity.
Qed.

(** What [close_cb] does: the report, the close request, the exit. *)
Lemma close_cb_spec st :
  exists st',
    close_cb st
    = Exit (if fst (quiche_conn_close (world st)) <? 0 then -1 else 0) st' /\
    stdout st' = stdout st ++ map (report_line (fcts st)) (seqZ 0 N) /\
    calls st' = ConnClose (fst (quiche_conn_close (world st))) :: calls st /\
    fcts st' = fcts st.
Proof.
  unfold close_cb.
  destruct (report_loop_spec (Z.to_nat N) 0 st) as (a1 & a2 & a3 & a4 & a5 & a6).
  rewrite Z2Nat.id in a6 by (unfold N; lia).
  revert a1 a2 a3 a4 a5 a6.
  generalize (report_loop (Z.to_nat N) 0 st). intros st1 a1 a2 a3 a4 a5 a6.
  rewrite a1. destruct (quiche_conn_close (world st)) as [ret w1].
  cbn [fst].
  destruct (ret <? 0); eexists; (split; [reflexivity|]);
    cbn [stdout calls fcts log set_world]; rewrite a3, a5, a6;
    split; [reflexivity|split; reflexivity | reflexivity | split; reflexivity].
Qed.

(** C9. The shutdown-grace handler ends the process right after the close
    request: with exit code 0 (status 0) when the engine's result is not
    negative, with exit code -1 (status 255) when it is; it has no other
    outcome. *)
Theorem close_cb_exit_status st :
  exists st',
    close_cb st
    = Exit (if fst (quiche_conn_close (world st)) <? 0 then -1 else 0) st' /\
    exit_status (if fst (quiche_conn_close (world st)) <? 0 then -1 else 0)
    = (if fst (quiche_conn_close (world st)) <? 0 then 255 else 0) /\
    calls st' = ConnClose (fst (quiche_conn_close (world st))) :: calls st.
Proof.
  destruct (close_cb_spec st) as (st' & H & _ & Hc & _).
  exists st'. repeat split; try assumption.
  destruct (fst (quiche_conn_close (world st)) <? 0); reflexivity.
Qed.

(** C3, as the code has it. The shutdown-grace handler prints one line for
    every slot 0..N-1 of the ledger, whether its end timestamp was set or
    not, with the value [1000 * (end.sec - begin.sec) + (end.usec -
    begin.usec) / 1000] reduced to 64 bits; for a slot whose end timestamp
    is still the initial zero this is the difference of zero and the begin
    timestamp. *)
Theorem close_cb_reports_every_slot st :
  exists code st',
    close_cb st = Exit code st' /\
    stdout st' = stdout st ++ map (report_line (fcts st)) (seqZ 0 N) /\
    forall i f,
      fcts st !! Z.to_nat i = Some f -> end_ f = tv_zero ->
      report_line (fcts st) i
      = Report i (to_i64 (to_u64 (1000 * (0 - tv_sec (begin f))
                                  + Z.quot (0 - tv_usec (begin f)) 1000))).
Proof.
  destruct (close_cb_spec st) as (st' & H & Ho & _).
  eexists _, st'. repeat split; try eassumption.
  intros i f Hf He. unfold report_line, latency.
  rewrite (nth_lookup_Some _ _ _ _ Hf), He. reflexivity.
Qed.

(** *** The socket callback *)

Lemma existsb_kind_false (kind p : call -> bool) cs :
  (forall c, kind c = true -> p c = false) ->
  forallb kind cs = true -> existsb p cs = false.
Proof.
  intros Hk. induction cs as [|c cs IH]; simpl; [reflexivity|].
  intros H. apply andb_true_iff in H as [Hc Hcs].
  rewrite (Hk _ Hc), (IH Hcs). reflexivity.
Qed.

Lemma flush_call_not_fatal c : flush_call c = true -> fatal_recv c = false.
Proof. destruct c; simpl; intros; try discriminate; reflexivity. Qed.

Lemma stream_recv_call_not_fatal c :
  stream_recv_call c = true -> fatal_recv c = false.
Proof. destruct c; simpl; intros; try discriminate; reflexivity. Qed.

(** When the datagram loop ends by [break] and the connection is not
    closed, [recv_cb] reads the streams (if established) and then runs the
    flusher. *)
Lemma recv_cb_flush_path fuel st st1 st' :
  recv_loop fuel st = Some (Break, st1) ->
  quiche_conn_is_closed (world st1) = false ->
  recv_cb fuel st = Return st' ->
  exists st2 news,
    added stream_recv_call st1 st2 news /\ flush_egress fuel st2 = Some st'.
Proof.
  intros E Hc H. unfold recv_cb in H. rewrite E, Hc in H.
  match type of H with flushed (flush_egress _ ?s) = _ =>
    destruct (flush_egress fuel s) as [st3|] eqn:F; [|discriminate];
    exists s end.
  inversion H; subst.
  destruct (quiche_conn_is_established (world st1)).
  - destruct (read_streams_frame (quiche_conn_readable (world st1)) st1)
      as (_ & _ & news & Ha & _).
    exists news. split; [exact Ha|exact F].
  - exists []. split; [split; reflexivity|exact F].
Qed.

(** C2, as the code has it. In a pass of the socket callback that reaches
    the stream loop, the streams read are the readable streams in the
    iterator's order up to and including the first whose read returns an
    error: a failed read is the last read of the pass, the streams after
    it are not read, and only a failed read ends the pass early.  The
    error is not fatal: the callback goes on to flush egress. *)
Theorem stream_read_error_ends_pass fuel st st1 :
  recv_loop fuel st = Some (Break, st1) ->
  quiche_conn_is_closed (world st1) = false ->
  quiche_conn_is_established (world st1) = true ->
  exists st2 rs,
    recv_cb fuel st = flushed (flush_egress fuel st2) /\
    stream_reads (calls st2) = stream_reads (calls st) ++ rs /\
    map fst rs
    = take (length rs) (map to_u64 (quiche_conn_readable (world st1))) /\
    (forall (k : nat) s r,
        rs !! k = Some (s, r) -> r < 0 -> S k = length rs) /\
    ((length rs < length (quiche_conn_readable (world st1)))%nat ->
     exists s r, last rs = Some (s, r) /\ r < 0).
Proof.
  intros E Hc He.
  destruct (read_streams_reads (quiche_conn_readable (world st1)) st1)
    as (rs & Hrs & Hpre & Herr & Hshort).
  exists (read_streams (quiche_conn_readable (world st1)) st1), rs.
  split; [unfold recv_cb; rewrite E, Hc, He; reflexivity|].
  apply recv_loop_calls in E as (c & new & Ha & _).
  destruct (added_quiet _ _ _ _ ingress_call_quiet Ha) as (_ & q & _).
  rewrite <- q. auto.
Qed.

(** One full turn of the loop of [flush_egress] (lines 79-97): the engine
    writes a packet and the socket takes all of it.  [None] when the loop
    ends in this turn. *)
Definition flush_turn st : option (state W) :=
  let '(written, w1) := quiche_conn_send (world st) in
  let st1 := log (ConnSend written) (set_world w1 st) in
  if (written =? QUICHE_ERR_DONE) || (written <? 0) then None
  else
    let '(sent, w2) := send written (world st1) in
    if negb (sent =? written) then None
    else Some (log (SockSend written sent) (set_world w2 st1)).

Fixpoint flush_turns (k : nat) st : option (state W) :=
  match k with
  | O => Some st
  | S k' =>
    match flush_turn st with
    | Some st2 => flush_turns k' st2
    | None => None
    end
  end.

(** The next turn of the loop is a short send: the engine writes a packet
    and the socket takes another byte count than asked. *)
Definition next_send_short st : bool :=
  let '(written, w1) := quiche_conn_send (world st) in
  negb (written =? QUICHE_ERR_DONE) && (0 <=? written)
  && negb (fst (send written w1) =? written).

(** The state after the engine wrote a packet and the socket was asked to
    send it. *)
Definition sent_once st : state W :=
  let '(written, w1) := quiche_conn_send (world st) in
  let st1 := log (ConnSend written) (set_world w1 st) in
  let '(sent, w2) := send written (world st1) in
  log (SockSend written sent) (set_world w2 st1).

(** One full turn of the datagram loop of [recv_cb] (lines 112-136): a
    datagram is received and the engine processes it.  [None] when the
    loop ends in this turn. *)
Definition recv_turn st : option (state W) :=
  let '((read, errno), w1) := recv (world st) in
  let st1 := log (SockRecv read errno) (set_world w1 st) in
  if read <? 0 then None
  else
    let '(done, w2) := quiche_conn_recv read (world st1) in
    if (done =? QUICHE_ERR_DONE) || (done <? 0) then None
    else Some (log (ConnRecv read done) (set_world w2 st1)).

Fixpoint recv_turns (k : nat) st : option (state W) :=
  match k with
  | O => Some st
  | S k' =>
    match recv_turn st with
    | Some st2 => recv_turns k' st2
    | None => None
    end
  end.

(** The next receive fails with something else than would-block. *)
Definition next_recv_fatal st : bool :=
  let '((read, errno), _) := recv (world st) in
  (read <? 0) && negb ((errno =? EWOULDBLOCK) || (errno =? EAGAIN)).

(** The state after one receive. *)
Definition received_once st : state W :=
  let '((read, errno), w1) := recv (world st) in
  log (SockRecv read errno) (set_world w1 st).

Lemma flush_turn_loop fuel st st2 :
  flush_turn st = Some st2 ->
  flush_loop (S fuel) st = flush_loop fuel st2 /\ same_driver st st2.
Proof.
  unfold flush_turn. cbn [flush_loop].
  destruct (quiche_conn_send (world st)) as [written w1].
  destruct (written =? QUICHE_ERR_DONE); [discriminate|].
  destruct (written <? 0); [discriminate|]. cbn [orb].
  destruct (send written
              (world (log (ConnSend written) (set_world w1 st))))
    as [sent w2].
  destruct (negb (sent =? written)); [discriminate|].
  intros H. inversion H; subst. split; [reflexivity|]. repeat split.
Qed.

Lemma flush_turns_loop k : forall fuel st stk,
  flush_turns k st = Some stk ->
  flush_loop (k + fuel) st = flush_loop fuel stk /\ same_driver st stk.
Proof.
  induction k as [|k IH]; intros fuel st stk H; simpl in H.
  { inversion H; subst. split; [reflexivity|]. repeat split. }
  destruct (flush_turn st) as [st2|] eqn:T; [|discriminate].
  destruct (flush_turn_loop (k + fuel) _ _ T) as [E (a1 & a2 & a3 & a4 & a5)].
  destruct (IH fuel _ _ H) as [E' (b1 & b2 & b3 & b4 & b5)].
  split.
  - change (S k + fuel)%nat with (S (k + fuel)). rewrite E. exact E'.
  - repeat split; congruence.
Qed.

Lemma short_send_returns fuel st :
  next_send_short st = true ->
  flush_loop (S fuel) st = Some (Returned, sent_once st) /\
  io (sent_once st) = io st.
Proof.
  unfold next_send_short, sent_once. cbn [flush_loop].
  destruct (quiche_conn_send (world st)) as [written w1].
  cbn [world log set_world].
  destruct (send written w1) as [sent w2]. cbn [fst].
  intros H. apply andb_true_iff in H as [H Hs].
  apply andb_true_iff in H as [Hd Hp].
  apply negb_true_iff in Hd. apply Z.leb_le in Hp.
  rewrite Hd, Hs.
  replace (written <? 0) with false by (symmetry; apply Z.ltb_ge; exact Hp).
  split; reflexivity.
Qed.

Lemma recv_turn_loop fuel st st2 :
  recv_turn st = Some st2 ->
  recv_loop (S fuel) st = recv_loop fuel st2 /\ same_driver st st2.
Proof.
  unfold recv_turn. cbn [recv_loop].
  destruct (recv (world st)) as [[read errno] w1].
  destruct (read <? 0); [discriminate|].
  destruct (quiche_conn_recv read
              (world (log (SockRecv read errno) (set_world w1 st))))
    as [done w2].
  destruct (done =? QUICHE_ERR_DONE); [discriminate|].
  destruct (done <? 0); [discriminate|]. cbn [orb].
  intros H. inversion H; subst. split; [reflexivity|]. repeat split.
Qed.

Lemma recv_turns_loop k : forall fuel st stk,
  recv_turns k st = Some stk ->
  recv_loop (k + fuel) st = recv_loop fuel stk /\ same_driver st stk.
Proof.
  induction k as [|k IH]; intros fuel st stk H; simpl in H.
  { inversion H; subst. split; [reflexivity|]. repeat split. }
  destruct (recv_turn st) as [st2|] eqn:T; [|discriminate].
  destruct (recv_turn_loop (k + fuel) _ _ T) as [E (a1 & a2 & a3 & a4 & a5)].
  destruct (IH fuel _ _ H) as [E' (b1 & b2 & b3 & b4 & b5)].
  split.
  - change (S k + fuel)%nat with (S (k + fuel)). rewrite E. exact E'.
  - repeat split; congruence.
Qed.

Lemma fatal_recv_returns fuel st :
  next_recv_fatal st = true ->
  recv_loop (S fuel) st = Some (Returned, received_once st) /\
  same_driver st (received_once st).
Proof.
  unfold next_recv_fatal, received_once. cbn [recv_loop].
  destruct (recv (world st)) as [[read errno] w1].
  intros H. apply andb_true_iff in H as [Hr He].
  apply negb_true_iff in He. rewrite Hr, He.
  split; [reflexivity|]. repeat split.
Qed.

(** C4, as the code has it. A short send makes the flusher return at once:
    when, after any number of packets sent in full, the socket takes
    another byte count than asked, the flush returns right after that
    send, and the timers are as they were before the flush (the
    retransmission timer is not re-armed).  A receive error other than
    would-block makes the socket callback return at once: when, after any
    number of datagrams processed, a receive fails with another error, the
    callback returns to the event loop right after that receive, with the
    connection context, the ledger and the output as they were (no stream
    is read, nothing is flushed).  In every flush and every pass that
    returns, no call follows a short send or a fatal receive error.
    Neither ends the process: no callback but [close_cb] exits. *)
Theorem transport_error_returns fuel st :
  (forall k stk,
     flush_turns k st = Some stk -> next_send_short stk = true ->
     (k < fuel)%nat ->
     flush_egress fuel st = Some (sent_once stk) /\
     io (sent_once stk) = io st) /\
  (forall k stk,
     recv_turns k st = Some stk -> next_recv_fatal stk = true ->
     (k < fuel)%nat ->
     recv_cb fuel st = Return (received_once stk) /\
     same_driver st (received_once stk)) /\
  (forall st', flush_egress fuel st = Some st' ->
     exists c new, calls st' = c :: new ++ calls st /\
       existsb short_send new = false /\
       (short_send c = true -> io st' = io st)) /\
  (forall st', recv_cb fuel st = Return st' ->
     exists c new, calls st' = c :: new ++ calls st /\
       existsb fatal_recv new = false /\
       (fatal_recv c = true -> same_driver st st')) /\
  (forall ev code st', ev <> CloseExpired ->
     dispatch fuel ev st <> Exit code st').
Proof.
  split; [|split; [|split; [|split]]].
  - intros k stk Hk Hs Hlt.
    destruct (Nat.lt_exists_pred _ _ Hlt) as (m & -> & Hm).
    replace (S m) with (k + S (m - k))%nat by lia.
    destruct (flush_turns_loop k (S (m - k)) _ _ Hk) as [E (a1 & _)].
    destruct (short_send_returns (m - k) _ Hs) as [R Hio].
    unfold flush_egress. rewrite E, R. split; [reflexivity|]. congruence.
  - intros k stk Hk Hs Hlt.
    destruct (Nat.lt_exists_pred _ _ Hlt) as (m & -> & Hm).
    replace (S m) with (k + S (m - k))%nat by lia.
    destruct (recv_turns_loop k (S (m - k)) _ _ Hk) as [E Hd].
    destruct (fatal_recv_returns (m - k) _ Hs) as [R Hd'].
    unfold recv_cb. rewrite E, R. split; [reflexivity|].
    destruct Hd as (a1 & a2 & a3 & a4 & a5).
    destruct Hd' as (b1 & b2 & b3 & b4 & b5).
    repeat split; congruence.
  - intros st' H. apply flush_egress_calls in H as (c & new & [Hc _] & Hn & Hs).
    exists c, new. auto.
  - intros st' H.
    destruct (recv_loop fuel st) as [[[] st1]|] eqn:E.
    + pose proof (recv_loop_calls _ _ _ _ E) as (c1 & new1 & [Hc1 Hk1] & Hn1 & Hb1).
      specialize (Hb1 eq_refl).
      destruct (quiche_conn_is_closed (world st1)) eqn:Hcl.
      * unfold recv_cb in H. rewrite E, Hcl in H. inversion H; subst.
        exists c1, new1. split; [exact Hc1|split; [exact Hn1|]].
        rewrite Hb1. intros Hf. discriminate Hf.
      * destruct (recv_cb_flush_path _ _ _ _ E Hcl H)
          as (st2 & news & [Hcs Hks] & F).
        apply flush_egress_calls in F as (cf & newf & [Hcf Hkf] & _).
        exists cf, (newf ++ news ++ c1 :: new1). split; [|split].
        -- rewrite Hcf, Hcs, Hc1. simpl. rewrite <- !app_assoc. reflexivity.
        -- simpl in Hkf. apply andb_true_iff in Hkf as [_ Hkf].
           rewrite !existsb_app. simpl.
           rewrite (existsb_kind_false _ _ _ flush_call_not_fatal Hkf),
             (existsb_kind_false _ _ _ stream_recv_call_not_fatal Hks),
             Hb1, Hn1. reflexivity.
        -- simpl in Hkf. apply andb_true_iff in Hkf as [Hkc _].
           rewrite (flush_call_not_fatal _ Hkc). intros Hf. discriminate Hf.
    + pose proof (recv_loop_frame _ _ _ _ E) as Hfr.
      apply recv_loop_calls in E as Hcalls.
      destruct Hcalls as (c1 & new1 & [Hc1 Hk1] & Hn1 & _).
      unfold recv_cb in H. rewrite E in H. inversion H; subst.
      exists c1, new1. auto.
    + unfold recv_cb in H. rewrite E in H. discriminate H.
  - intros ev code st' Hev. destruct ev; simpl.
    + unfold recv_cb. destruct (recv_loop fuel st) as [[[] st1]|]; try discriminate.
      destruct (quiche_conn_is_closed (world st1)); [discriminate|].
      match goal with |- flushed ?r <> _ => destruct r; discriminate end.
    + destruct (active (timer (io st))); [|discriminate].
      unfold timeout_cb.
      match goal with |- context [flush_egress fuel ?s] =>
        destruct (flush_egress fuel s) as [st2|]; [|discriminate] end.
      destruct (quiche_conn_is_closed (world st2)); discriminate.
    + destruct (active (request (io st))); [|discriminate].
      unfold request_cb. destruct (request_issue st); [discriminate|].
      match goal with |- flushed ?r <> _ => destruct r; discriminate end.
    + contradiction.
Qed.

(** *** Which callbacks end in the flusher *)

Lemma stamp_calls upd i st : calls (stamp upd i st) = calls st.
Proof.
  unfold stamp. destruct (gettimeofday (world st)) as [now w].
  unfold ledger_write. destruct ((0 <=? i) && (i <? N)); reflexivity.
Qed.

(** Whether the guarded stream write of a tick is attempted and fails. *)
Definition write_fails st : bool :=
  quiche_conn_is_established (world st)
  && (request_id (io st) <=? 4 * N)
  && (to_int (fst (quiche_conn_stream_send (request_id (io st)) (world st)))
      <? 0).

Lemma request_issue_spec st :
  match request_issue st with
  | inl st1 =>
    write_fails st = true /\
    calls st1
    = StreamSend (request_id (io st))
        (to_int (fst (quiche_conn_stream_send (request_id (io st)) (world st))))
      :: calls st /\
    io st1 = io st
  | inr st1 =>
    write_fails st = false /\
    exists newi, calls st1 = newi ++ calls st
  end.
Proof.
  unfold request_issue, write_fails.
  destruct (quiche_conn_is_established (world st)
            && (request_id (io st) <=? 4 * N)).
  2:{ split; [reflexivity|]. exists []. reflexivity. }
  destruct (quiche_conn_stream_send (request_id (io st)) (world st))
    as [ret w1].
  cbn [fst andb]. destruct (to_int ret <? 0).
  { repeat split. }
  split; [reflexivity|].
  exists [StreamSend (request_id (io st)) (to_int ret)].
  cbn [calls set_io]. rewrite stamp_calls. reflexivity.
Qed.

Lemma request_timers_calls st : calls (request_timers st) = calls st.
Proof.
  unfold request_timers. destruct (4 * N <? request_id (io st)); reflexivity.
Qed.

(** C5, as the code has it. A request tick whose stream write fails
    returns at once: its only call is the failed write, no packet is asked
    of the engine and the timers stay as they were.  Every other request
    tick that returns, and every retransmission-timeout callback that
    returns, ends with a call of the flusher; so does the socket callback
    when its datagram loop ends by [break] and the connection is not
    closed. *)
Theorem callbacks_end_in_flush fuel st st' :
  (request_cb fuel st = Return st' ->
   if write_fails st
   then calls st'
        = StreamSend (request_id (io st))
            (to_int (fst (quiche_conn_stream_send (request_id (io st))
                                                  (world st))))
          :: calls st /\
        packets_requested (calls st') = packets_requested (calls st) /\
        io st' = io st
   else exists c new, calls st' = c :: new ++ calls st /\ flush_call c = true) /\
  (timeout_cb fuel st = Return st' ->
   exists c new, calls st' = c :: new ++ calls st /\ flush_call c = true) /\
  (forall st1,
     recv_loop fuel st = Some (Break, st1) ->
     quiche_conn_is_closed (world st1) = false ->
     recv_cb fuel st = Return st' ->
     exists c new, calls st' = c :: new ++ calls st /\ flush_call c = true).
Proof.
  split; [|split].
  - intros H. unfold request_cb in H.
    pose proof (request_issue_spec st) as Hs.
    destruct (request_issue st) as [st1|st1].
    + destruct Hs as (-> & Hc & Hio). inversion H; subst.
      rewrite Hc. repeat split. exact Hio.
    + destruct Hs as (-> & newi & Hc).
      destruct (flush_egress fuel (request_timers st1)) as [st3|] eqn:F;
        [|discriminate].
      inversion H; subst.
      apply flush_egress_calls in F as (c & new & [Hcf Hk] & _).
      exists c, (new ++ newi). split.
      * rewrite Hcf, request_timers_calls, Hc. simpl.
        rewrite <- app_assoc. reflexivity.
      * simpl in Hk. apply andb_true_iff in Hk as [Hk _]. exact Hk.
  - intros H. unfold timeout_cb in H.
    match type of H with context [flush_egress _ ?s] =>
      destruct (flush_egress fuel s) as [st2|] eqn:F; [|discriminate] end.
    apply flush_egress_calls in F as (c & new & [Hcf Hk] & _).
    simpl in Hk. apply andb_true_iff in Hk as [Hk _].
    exists c, (new ++ [OnTimeout]).
    destruct (quiche_conn_is_closed (world st2)); inversion H; subst;
      (split; [|exact Hk]); cbn [calls ev_break]; rewrite Hcf; simpl;
      rewrite <- app_assoc; reflexivity.
  - intros st1 E Hcl H.
    destruct (recv_cb_flush_path _ _ _ _ E Hcl H) as (st2 & news & [Hcs _] & F).
    apply flush_egress_calls in F as (c & new & [Hcf Hk] & _).
    apply recv_loop_calls in E as (c1 & new1 & [Hc1 _] & _).
    simpl in Hk. apply andb_true_iff in Hk as [Hk _].
    exists c, (new ++ news ++ c1 :: new1). split; [|exact Hk].
    rewrite Hcf, Hcs, Hc1. simpl. rewrite <- !app_assoc. reflexivity.
Qed.

(** *** Slot 0 of the ledger *)

Lemma in_stride_ids n id : In id (stride_ids n) -> 1 <= Z.quot id 4.
Proof.
  unfold stride_ids. intros H. apply in_map_iff in H as (k & <- & _).
  replace (4 + 4 * Z.of_nat k) with ((1 + Z.of_nat k) * 4) by lia.
  rewrite Z.quot_mul by lia. lia.
Qed.

(** C10, as the code has it. In every state the event loop can be in, every
    issued request has a ledger index of at least 1 and slot 0 has no
    begin timestamp.  Its end timestamp is the initial zero as well unless
    a stream whose ledger entry is slot 0 was read to its fin: a stream
    with an identifier below 4, or one whose identifier divided by 4 is
    another multiple of 2^59, the address of the entry being computed
    modulo 2^64.  That case excepted, the report's line for index 0 is
    "0, 0". *)
Theorem slot0_never_begins st :
  reachable st ->
  (forall id, In id (issued (calls st)) -> 1 <= Z.quot id 4) /\
  exists f,
    fcts st !! 0%nat = Some f /\ begin f = tv_zero /\
    (existsb fin_on_slot0 (calls st) = false ->
     f = fct_zero /\
     forall code st', close_cb st = Exit code st' ->
       exists rest, stdout st' = stdout st ++ Report 0 0 :: rest).
Proof.
  intros Hr. destruct (reachable_inv _ Hr) as (n & Hn & Hid & His & Hl & H0).
  split. { rewrite His. intros id. apply in_stride_ids. }
  destruct (lookup_lt_is_Some_2 (fcts st) 0%nat) as [f Hf].
  { rewrite Hl. unfold N. lia. }
  destruct (H0 _ Hf) as [Hb He].
  exists f. repeat split; try assumption.
  - destruct f as [b e]. simpl in *. rewrite Hb, (He H). reflexivity.
  - intros code st' Hc.
    destruct (close_cb_spec st) as (st2 & Hc2 & Ho & _).
    rewrite Hc in Hc2. inversion Hc2; subst.
    rewrite Ho. rewrite (seqZ_cons 0 N) by (unfold N; lia).
    eexists. simpl. f_equal. f_equal. unfold report_line.
    change (Z.to_nat 0) with 0%nat.
    rewrite (nth_lookup_Some _ _ _ _ Hf).
    destruct f as [b e]. simpl in *. rewrite Hb, (He H). reflexivity.
Qed.

End Properties.

(** ** Concrete runs *)

(** The state a run of the event loop ends in. *)
Definition final (evs : list (event * nat)) (w : script) : state script :=
  match ev_loop evs (started w) with
  | Return st => st
  | Exit _ st => st
  | Diverge => started w
  end.

(** The state a callback returns to the loop with ([d] if it does not
    return). *)
Definition returned {W : Type} (o : outcome W) (d : state W) : state W :=
  match o with
  | Return st => st
  | _ => d
  end.

Lemma started_reachable (w : script) :
  main 8 w = Some (started w) -> reachable (started w).
Proof. apply reach_main. Qed.

Lemma final_reachable evs (w : script) :
  main 8 w = Some (started w) ->
  ev_loop evs (started w) = Return (final evs w) ->
  reachable (final evs w).
Proof.
  intros Hm He. eapply ev_loop_reachable; [|exact He].
  apply started_reachable, Hm.
Qed.

(** Facts about a concrete run are settled by evaluating it. *)
Ltac run :=
  vm_compute; first [reflexivity | discriminate | intro; discriminate].

(** *** The last request overruns the ledger *)

(** C1. On an established connection where every write succeeds, one
    hundred ticks issue the streams 4, 8, ..., 400; the begin timestamp of
    the last one is stored at index [400 / 4 = N], one past the last slot
    of the [N]-slot ledger. *)
Theorem last_request_overruns_ledger :
  ev_loop (ticks 100) (started quiet) = Return (final (ticks 100) quiet) /\
  length (issued (calls (final (ticks 100) quiet))) = Z.to_nat N /\
  last (issued (calls (final (ticks 100) quiet))) = Some (4 * N) /\
  stray (final (ticks 100) quiet) = [Z.quot (4 * N) 4] /\
  Z.quot (4 * N) 4 = N /\
  length (fcts (final (ticks 100) quiet)) = Z.to_nat N.
Proof. repeat (split; [run|]). run. Qed.

(** *** Witnesses of the scheduler theorems *)

Lemma request_ids_fixed_stride_witness :
  reachable (final (ticks 3) quiet) /\
  request_id (io (final (ticks 3) quiet))
  = 4 + 4 * Z.of_nat (length (issued (calls (final (ticks 3) quiet)))) /\
  12 = 4 + 4 * Z.of_nat 2.
Proof.
  assert (Hr : reachable (final (ticks 3) quiet))
    by (apply final_reachable; run).
  split; [exact Hr|].
  destruct (request_ids_fixed_stride (final (ticks 3) quiet) Hr) as [H1 H2].
  split; [exact H1|].
  apply (H2 2%nat 12); run.
Defined.

Lemma issued_within_budget_witness :
  reachable (final (ticks 100) quiet) /\
  Z.of_nat (length (issued (calls (final (ticks 100) quiet)))) <= N /\
  issued (calls (returned (request_cb 1 (final (ticks 100) quiet))
                         (final (ticks 100) quiet)))
  = issued (calls (final (ticks 100) quiet)).
Proof.
  assert (Hr : reachable (final (ticks 100) quiet))
    by (apply final_reachable; run).
  split; [exact Hr|].
  destruct (issued_within_budget (final (ticks 100) quiet) Hr) as [H1 H2].
  split; [exact H1|].
  apply (H2 ltac:(run) 1%nat). run.
Defined.

(** *** A refused stream write *)

(** An established connection whose engine refuses the first stream write
    (stream limit). *)
Definition refusing : script :=
  Script [] [] [] true false [] [] [-12] 0 25000000 100.

Lemma request_cb_failed_write_witness :
  quiche_conn_is_established (world (started refusing)) = true /\
  request_id (io (started refusing)) <= 4 * N /\
  to_int (fst (quiche_conn_stream_send (request_id (io (started refusing)))
                                       (world (started refusing)))) < 0 /\
  exists st',
    request_cb 8 (started refusing) = Return st' /\
    io st' = io (started refusing) /\ fcts st' = fcts (started refusing).
Proof.
  assert (He : quiche_conn_is_established (world (started refusing)) = true)
    by run.
  assert (Hg : request_id (io (started refusing)) <= 4 * N) by run.
  assert (Hr : to_int (fst (quiche_conn_stream_send
                              (request_id (io (started refusing)))
                              (world (started refusing)))) < 0) by run.
  repeat (split; [assumption|]).
  destruct (request_cb_failed_write 8 (started refusing) He Hg Hr)
    as (st' & H & Hio & Hf & _).
  exists st'. auto.
Defined.

(** C5 fails on the code: the tick whose stream write is refused returns
    right after the write; the engine is asked for no packet, so the
    flusher did not run. *)
Lemma refused_write_skips_flush :
  ev_loop [(RequestExpired, 8%nat)] (started refusing)
  = Return (final [(RequestExpired, 8%nat)] refusing) /\
  calls (final [(RequestExpired, 8%nat)] refusing)
  = StreamSend 4 (-12) :: calls (started refusing) /\
  packets_requested (calls (final [(RequestExpired, 8%nat)] refusing))
  = packets_requested (calls (started refusing)).
Proof. repeat (split; [run|]). run. Qed.

Lemma callbacks_end_in_flush_witness :
  calls (returned (request_cb 8 (started refusing)) (started refusing))
  = StreamSend (request_id (io (started refusing)))
      (to_int (fst (quiche_conn_stream_send
                      (request_id (io (started refusing)))
                      (world (started refusing)))))
    :: calls (started refusing) /\
  packets_requested
    (calls (returned (request_cb 8 (started refusing)) (started refusing)))
  = packets_requested (calls (started refusing)) /\
  io (returned (request_cb 8 (started refusing)) (started refusing))
  = io (started refusing).
Proof.
  exact (proj1 (callbacks_end_in_flush 8 (started refusing)
                  (returned (request_cb 8 (started refusing))
                            (started refusing)))
               eq_refl).
Defined.

(** *** A stream whose read fails *)

(** Streams 4 and 8 are readable; reading 4 fails, reading 8 would deliver
    five bytes and the fin. *)
Definition failing_stream : script :=
  Script [] [] [] true false [4; 8] [(4, (-7, false)); (8, (5, true))] []
         0 25000000 100.

(** The state after the datagram loop of [recv_cb]. *)
Definition drained (w : script) : state script :=
  match recv_loop 8 (started w) with
  | Some (_, st) => st
  | None => started w
  end.

(** C2 fails on the code: after the failed read of stream 4 the pass ends;
    stream 8, readable as well, is not read and its end timestamp (slot 2)
    is not recorded. *)
Lemma read_error_skips_later_streams :
  ev_loop [(SockReadable, 8%nat)] (started failing_stream)
  = Return (final [(SockReadable, 8%nat)] failing_stream) /\
  quiche_conn_readable (world (drained failing_stream)) = [4; 8] /\
  stream_reads (calls (final [(SockReadable, 8%nat)] failing_stream))
  = [(4, -7)] /\
  fcts (final [(SockReadable, 8%nat)] failing_stream) !! 2%nat
  = Some fct_zero.
Proof. repeat (split; [run|]). run. Qed.

Lemma stream_read_error_ends_pass_witness :
  recv_loop 8 (started failing_stream)
  = Some (Break, drained failing_stream) /\
  quiche_conn_is_closed (world (drained failing_stream)) = false /\
  quiche_conn_is_established (world (drained failing_stream)) = true /\
  exists st2 rs,
    recv_cb 8 (started failing_stream) = flushed (flush_egress 8 st2) /\
    stream_reads (calls st2)
    = stream_reads (calls (started failing_stream)) ++ rs.
Proof.
  assert (E : recv_loop 8 (started failing_stream)
              = Some (Break, drained failing_stream)) by run.
  assert (Hc : quiche_conn_is_closed (world (drained failing_stream)) = false)
    by run.
  assert (He : quiche_conn_is_established (world (drained failing_stream))
               = true) by run.
  repeat (split; [assumption|]).
  destruct (stream_read_error_ends_pass 8 _ _ E Hc He)
    as (st2 & rs & H1 & H2 & _).
  exists st2, rs. auto.
Defined.

(** *** Requests that are never answered *)

(** C3 fails on the code: no stream was ever read, so no end timestamp was
    set; the report still prints a line for slot 1, with the negative value
    obtained by subtracting its begin timestamp (100 s) from zero. *)
Lemma report_prints_unset_entry :
  ev_loop (ticks 100 ++ [(CloseExpired, 1%nat)]) (started quiet)
  = Exit 0 (final (ticks 100 ++ [(CloseExpired, 1%nat)]) quiet) /\
  stream_reads (calls (final (ticks 100 ++ [(CloseExpired, 1%nat)]) quiet))
  = [] /\
  fcts (final (ticks 100 ++ [(CloseExpired, 1%nat)]) quiet) !! 1%nat
  = Some (Fct (Timeval 100 0) tv_zero) /\
  stdout (final (ticks 100 ++ [(CloseExpired, 1%nat)]) quiet) !! 1%nat
  = Some (Report 1 (-100000)).
Proof. repeat (split; [run|]). run. Qed.

Lemma close_cb_reports_every_slot_witness :
  fcts (final (ticks 100) quiet) !! Z.to_nat 1
  = Some (Fct (Timeval 100 0) tv_zero) /\
  end_ (Fct (Timeval 100 0) tv_zero) = tv_zero /\
  report_line (fcts (final (ticks 100) quiet)) 1
  = Report 1 (to_i64 (to_u64
      (1000 * (0 - tv_sec (begin (Fct (Timeval 100 0) tv_zero)))
       + Z.quot (0 - tv_usec (begin (Fct (Timeval 100 0) tv_zero))) 1000))).
Proof.
  assert (Hf : fcts (final (ticks 100) quiet) !! Z.to_nat 1
               = Some (Fct (Timeval 100 0) tv_zero)) by run.
  split; [exact Hf|]. split; [reflexivity|].
  destruct (close_cb_reports_every_slot (final (ticks 100) quiet))
    as (code & st' & _ & _ & H).
  exact (H 1 (Fct (Timeval 100 0) tv_zero) Hf eq_refl).
Defined.

(** *** Transport errors *)

(** The engine has two packets of 1200 bytes; the socket takes only 600
    bytes of the first. *)
Definition short_write : script :=
  Script [1200; 1200] [600] [] true false [] [] [] 0 25000000 100.

(** The engine has a packet for each of two flushes; the first receive
    fails with "connection refused". *)
Definition recv_error : script :=
  Script [1200; -1; 1200] [] [(-1, 111)] true false [] [] [] 0 25000000 100.

(** C4 fails on the code: after the short send in the first flush the
    process is still in its event loop, and the next socket event sends
    the next packet; after the failed receive likewise, the next request
    tick writes a request and sends a packet. *)
Lemma transport_errors_do_not_end_the_run :
  calls (started short_write) = [SockSend 1200 600; ConnSend 1200] /\
  ev_loop [(SockReadable, 8%nat)] (started short_write)
  = Return (final [(SockReadable, 8%nat)] short_write) /\
  calls (final [(SockReadable, 8%nat)] short_write)
  = [ConnSend (-1); SockSend 1200 1200; ConnSend 1200; SockRecv (-1) 11;
     SockSend 1200 600; ConnSend 1200] /\
  ev_loop [(SockReadable, 8%nat); (RequestExpired, 8%nat)] (started recv_error)
  = Return (final [(SockReadable, 8%nat); (RequestExpired, 8%nat)] recv_error) /\
  calls (final [(SockReadable, 8%nat); (RequestExpired, 8%nat)] recv_error)
  = [ConnSend (-1); SockSend 1200 1200; ConnSend 1200; StreamSend 4 18;
     SockRecv (-1) 111;
     ConnSend (-1); SockSend 1200 1200; ConnSend 1200].
Proof. repeat (split; [run|]). run. Qed.

(** The engine has two packets of 1200 bytes; the socket takes the first
    whole and only 600 bytes of the second. *)
Definition second_short : script :=
  Script [1200; 1200] [1200; 600] [] true false [] [] [] 0 25000000 100.

(** The state of [main]'s first flush after [k] packets sent in full. *)
Definition turned (k : nat) (w : script) : state script :=
  match flush_turns k (main_init w) with
  | Some st => st
  | None => main_init w
  end.

Lemma transport_error_returns_witness :
  (flush_turns 1 (main_init second_short) = Some (turned 1 second_short) /\
   next_send_short (turned 1 second_short) = true /\
   (1 < 8)%nat /\
   flush_egress 8 (main_init second_short)
   = Some (sent_once (turned 1 second_short)) /\
   io (sent_once (turned 1 second_short)) = io (main_init second_short)) /\
  (recv_turns 0 (started recv_error) = Some (started recv_error) /\
   next_recv_fatal (started recv_error) = true /\
   (0 < 8)%nat /\
   recv_cb 8 (started recv_error)
   = Return (received_once (started recv_error)) /\
   same_driver (started recv_error) (received_once (started recv_error))).
Proof.
  assert (H1 : flush_turns 1 (main_init second_short)
               = Some (turned 1 second_short)) by run.
  assert (H2 : next_send_short (turned 1 second_short) = true) by run.
  assert (H3 : (1 < 8)%nat) by lia.
  assert (H4 : recv_turns 0 (started recv_error) = Some (started recv_error))
    by reflexivity.
  assert (H5 : next_recv_fatal (started recv_error) = true) by run.
  assert (H6 : (0 < 8)%nat) by lia.
  destruct (transport_error_returns 8 (main_init second_short)) as (A & _).
  destruct (transport_error_returns 8 (started recv_error)) as (_ & B & _).
  split.
  - repeat (split; [assumption|]). exact (A 1%nat _ H1 H2 H3).
  - repeat (split; [assumption|]). exact (B 0%nat _ H4 H5 H6).
Defined.

(** *** A stream opened by the server *)

(** The server's first unidirectional stream, 3, is readable and delivers
    its fin at once; the clock starts at 5 s. *)
Definition server_stream : script :=
  Script [] [] [] true false [3] [(3, (0, true))] [] 0 25000000 5.

(** C10 fails on the code: the fin of stream 3 stores an end timestamp in
    slot [3 / 4 = 0], and the report's line for index 0 is computed from
    it. *)
Lemma slot0_receives_end_timestamp :
  ev_loop ((SockReadable, 8%nat) :: ticks 100 ++ [(CloseExpired, 1%nat)])
          (started server_stream)
  = Exit 0 (final ((SockReadable, 8%nat) :: ticks 100
                   ++ [(CloseExpired, 1%nat)]) server_stream) /\
  fcts (final ((SockReadable, 8%nat) :: ticks 100 ++ [(CloseExpired, 1%nat)])
              server_stream) !! 0%nat
  = Some (Fct tv_zero (Timeval 5 0)) /\
  stdout (final ((SockReadable, 8%nat) :: ticks 100 ++ [(CloseExpired, 1%nat)])
                server_stream) !! 1%nat
  = Some (Report 0 5000).
Proof. repeat (split; [run|]). run. Qed.

(** The address of the entry wraps: the fin of stream [2^61 + 5], whose
    index is [2^59 + 1], stores its end timestamp in slot 1. *)
Definition far_stream : script :=
  Script [] [] [] true false [2 ^ 61 + 5] [(2 ^ 61 + 5, (0, true))] []
         0 25000000 7.

Lemma far_stream_writes_slot_1 :
  fcts (final [(SockReadable, 8%nat)] far_stream) !! 1%nat
  = Some (Fct tv_zero (Timeval 7 0)) /\
  stray (final [(SockReadable, 8%nat)] far_stream) = [].
Proof. split; run. Qed.

Lemma slot0_never_begins_witness :
  reachable (final (ticks 3) quiet) /\
  exists f,
    fcts (final (ticks 3) quiet) !! 0%nat = Some f /\ begin f = tv_zero.
Proof.
  assert (Hr : reachable (final (ticks 3) quiet))
    by (apply final_reachable; run).
  split; [exact Hr|].
  destruct (slot0_never_begins (final (ticks 3) quiet) Hr)
    as (_ & f & Hf & Hb & _).
  exists f. auto.
Defined.

(** ** Further properties of the callbacks *)

(** Read newest first: every socket send directly follows the engine call
    that produced the packet, and sends the byte count that call returned,
    which is neither negative nor "done". *)
Fixpoint sends_paired (cs : list call) : bool :=
  match cs with
  | [] => true
  | SockSend len _ :: rest =>
    match rest with
    | ConnSend written :: _ =>
      (len =? written) && (0 <=? written)
      && negb (written =? QUICHE_ERR_DONE) && sends_paired rest
    | _ => false
    end
  | _ :: rest => sends_paired rest
  end.

(** Read newest first: every datagram handed to the engine directly follows
    the socket receive that delivered it, with the length received, which
    is not negative. *)
Fixpoint feeds_paired (cs : list call) : bool :=
  match cs with
  | [] => true
  | ConnRecv len _ :: rest =>
    match rest with
    | SockRecv read _ :: _ => (len =? read) && (0 <=? read) && feeds_paired rest
    | _ => false
    end
  | _ :: rest => feeds_paired rest
  end.

(** Calls that are neither a socket send nor a datagram handed over. *)
Definition no_transport (c : call) : bool :=
  match c with
  | SockSend _ _ | ConnRecv _ _ => false
  | _ => true
  end.

(** The [printf] calls for a sequence of stream reads: one for each read
    that did not fail, with its result converted to [int] as the
    precision. *)
Fixpoint payloads (rs : list (Z * Z)) : list output :=
  match rs with
  | [] => []
  | (_, r) :: rs' =>
    if r <? 0 then payloads rs' else Payload (to_int r) :: payloads rs'
  end.

(** How a flush ended, by its last call. *)
Definition ended_done (c : call) : bool :=
  match c with
  | ConnSend ret => ret =? QUICHE_ERR_DONE
  | _ => false
  end.

Definition packet_error (c : call) : bool :=
  match c with
  | ConnSend ret => negb (ret =? QUICHE_ERR_DONE) && (ret <? 0)
  | _ => false
  end.

(** A timestamp in microseconds. *)
Definition micros (t : timeval) : Z := 1000000 * tv_sec t + tv_usec t.

Section Further.

Context {W : Type} {ops : World W}.

Implicit Types (st : state W) (fuel : nat) (cs : list call).

(** *** What goes over the socket *)

Definition same_pairing st st' : Prop :=
  sends_paired (calls st') = sends_paired (calls st) /\
  feeds_paired (calls st') = feeds_paired (calls st).

Lemma same_pairing_trans st1 st2 st3 :
  same_pairing st1 st2 -> same_pairing st2 st3 -> same_pairing st1 st3.
Proof. intros [a1 a2] [b1 b2]. split; congruence. Qed.

Lemma pairing_app new cs :
  forallb no_transport new = true ->
  sends_paired (new ++ cs) = sends_paired cs /\
  feeds_paired (new ++ cs) = feeds_paired cs.
Proof.
  induction new as [|c new IH]; simpl; [auto|].
  intros H. apply andb_true_iff in H as [Hc Hn].
  destruct c; simpl in *; try discriminate; auto.
Qed.

Lemma added_pairing kind st st' new :
  (forall c, kind c = true -> no_transport c = true) ->
  added kind st st' new -> same_pairing st st'.
Proof.
  intros Hk [Hc Hn]. unfold same_pairing. rewrite Hc. apply pairing_app.
  eapply forallb_weaken; [exact Hk|exact Hn].
Qed.

Lemma flush_loop_pairing fuel : forall st x st',
  flush_loop fuel st = Some (x, st') -> same_pairing st st'.
Proof.
  induction fuel as [|fuel IH]; intros st x st' H; simpl in H; [discriminate|].
  destruct (quiche_conn_send (world st)) as [written w1].
  destruct (written =? QUICHE_ERR_DONE) eqn:Hd.
  { inversion H; subst. split; reflexivity. }
  destruct (written <? 0) eqn:Hneg.
  { inversion H; subst. split; reflexivity. }
  simpl in H. destruct (send written w1) as [sent w2].
  assert (Hstep : same_pairing st
            (log (SockSend written sent)
               (set_world w2 (log (ConnSend written) (set_world w1 st))))).
  { split; simpl; [|reflexivity].
    rewrite Z.eqb_refl, Hd. apply Z.ltb_ge in Hneg.
    replace (0 <=? written) with true by (symmetry; apply Z.leb_le; exact Hneg).
    reflexivity. }
  destruct (negb (sent =? written)).
  { inversion H; subst. exact Hstep. }
  apply IH in H. eapply same_pairing_trans; eassumption.
Qed.

Lemma flush_egress_pairing fuel st st' :
  flush_egress fuel st = Some st' -> same_pairing st st'.
Proof.
  unfold flush_egress. intros H.
  destruct (flush_loop fuel st) as [[[] st1]|] eqn:E; inversion H; subst;
    apply flush_loop_pairing in E; exact E.
Qed.

Lemma recv_loop_pairing fuel : forall st x st',
  recv_loop fuel st = Some (x, st') -> same_pairing st st'.
Proof.
  induction fuel as [|fuel IH]; intros st x st' H; simpl in H; [discriminate|].
  destruct (recv (world st)) as [[read errno] w1].
  destruct (read <? 0) eqn:Hr.
  { destruct ((errno =? EWOULDBLOCK) || (errno =? EAGAIN));
      inversion H; subst; split; reflexivity. }
  simpl in H. destruct (quiche_conn_recv read w1) as [done w2].
  assert (Hstep : same_pairing st
            (log (ConnRecv read done)
               (set_world w2 (log (SockRecv read errno) (set_world w1 st))))).
  { split; simpl; [reflexivity|].
    rewrite Z.eqb_refl. apply Z.ltb_ge in Hr.
    replace (0 <=? read) with true by (symmetry; apply Z.leb_le; exact Hr).
    reflexivity. }
  destruct (done =? QUICHE_ERR_DONE).
  { inversion H; subst. exact Hstep. }
  destruct (done <? 0).
  { inversion H; subst. exact Hstep. }
  apply IH in H. eapply same_pairing_trans; eassumption.
Qed.

Lemma stream_recv_call_no_transport c :
  stream_recv_call c = true -> no_transport c = true.
Proof. destruct c; simpl; auto. Qed.

Lemma recv_cb_pairing fuel st st' :
  recv_cb fuel st = Return st' -> same_pairing st st'.
Proof.
  intros H. destruct (recv_loop fuel st) as [[[] st1]|] eqn:E.
  - pose proof (recv_loop_pairing _ _ _ _ E) as H1.
    destruct (quiche_conn_is_closed (world st1)) eqn:Hcl.
    + unfold recv_cb in H. rewrite E, Hcl in H. inversion H; subst. exact H1.
    + destruct (recv_cb_flush_path _ _ _ _ E Hcl H) as (st2 & news & Ha & F).
      eapply same_pairing_trans; [exact H1|].
      eapply same_pairing_trans;
        [exact (added_pairing _ _ _ _ stream_recv_call_no_transport Ha)|].
      apply (flush_egress_pairing _ _ _ F).
  - unfold recv_cb in H. rewrite E in H. inversion H; subst.
    apply (recv_loop_pairing _ _ _ _ E).
  - unfold recv_cb in H. rewrite E in H. discriminate H.
Qed.

Lemma stamp_io upd i st : io (stamp upd i st) = io st.
Proof.
  unfold stamp. destruct (gettimeofday (world st)) as [now w].
  unfold ledger_write. destruct ((0 <=? i) && (i <? N)); reflexivity.
Qed.

(** The guarded write adds at most the stream write to the calls. *)
Lemma request_issue_calls st st1 :
  (request_issue st = inl st1 \/ request_issue st = inr st1) ->
  calls st1 = calls st \/ exists ret,
    calls st1 = StreamSend (request_id (io st)) ret :: calls st.
Proof.
  unfold request_issue. intros H.
  destruct (quiche_conn_is_established (world st)
            && (request_id (io st) <=? 4 * N)).
  2:{ destruct H as [H|H]; inversion H; subst. left. reflexivity. }
  destruct (quiche_conn_stream_send (request_id (io st)) (world st))
    as [ret w1].
  right. exists (to_int ret).
  destruct (to_int ret <? 0); destruct H as [H|H]; inversion H; subst.
  - reflexivity.
  - cbn [calls set_io]. rewrite stamp_calls. reflexivity.
Qed.

Lemma request_cb_pairing fuel st st' :
  request_cb fuel st = Return st' -> same_pairing st st'.
Proof.
  unfold request_cb. intros H.
  destruct (request_issue st) as [st1|st1] eqn:E.
  - inversion H; subst.
    destruct (request_issue_calls st st' (or_introl E)) as [Hc|[ret Hc]];
      unfold same_pairing; rewrite Hc; split; reflexivity.
  - assert (H1 : same_pairing st st1).
    { destruct (request_issue_calls st st1 (or_intror E)) as [Hc|[ret Hc]];
        unfold same_pairing; rewrite Hc; split; reflexivity. }
    destruct (flush_egress fuel (request_timers st1)) as [st3|] eqn:F;
      [|discriminate].
    inversion H; subst. apply flush_egress_pairing in F.
    destruct F as [F1 F2]. rewrite request_timers_calls in F1, F2.
    eapply same_pairing_trans; [exact H1|]. split; assumption.
Qed.

Lemma timeout_cb_pairing fuel st st' :
  timeout_cb fuel st = Return st' -> same_pairing st st'.
Proof.
  unfold timeout_cb. intros H.
  match type of H with context [flush_egress _ ?s] =>
    destruct (flush_egress fuel s) as [st2|] eqn:F; [|discriminate] end.
  apply flush_egress_pairing in F.
  destruct (quiche_conn_is_closed (world st2)); inversion H; subst; exact F.
Qed.

Lemma reachable_pairing st :
  reachable st ->
  sends_paired (calls st) = true /\ feeds_paired (calls st) = true.
Proof.
  induction 1 as [fuel w st Hm|fuel ev st st' _ IH Hd].
  - apply flush_egress_pairing in Hm. exact Hm.
  - assert (Hs : same_pairing st st').
    { destruct ev; simpl in Hd.
      + apply (recv_cb_pairing _ _ _ Hd).
      + destruct (active (timer (io st)));
          [apply (timeout_cb_pairing _ _ _ Hd)|].
        inversion Hd; subst. split; reflexivity.
      + destruct (active (request (io st)));
          [apply (request_cb_pairing _ _ _ Hd)|].
        inversion Hd; subst. split; reflexivity.
      + destruct (active (close (io st))).
        * destruct (close_cb_exits st) as (code & st2 & Hc).
          rewrite Hc in Hd. discriminate Hd.
        * inversion Hd; subst. split; reflexivity. }
    destruct Hs as [-> ->]. exact IH.
Qed.

(** X1. In every state the event loop can be in, each datagram written to
    the socket so far was written right after the engine call that
    produced it, with exactly the byte count that call returned (never for
    a "done" or a negative result). *)
Theorem sends_are_engine_packets st :
  reachable st -> sends_paired (calls st) = true.
Proof. intros Hr. apply (reachable_pairing st Hr). Qed.

(** X3. In every state the event loop can be in, each datagram handed to
    the engine so far was handed over right after the socket receive that
    delivered it, with exactly the length received (never after a failed
    receive). *)
Theorem engine_is_fed_received_datagrams st :
  reachable st -> feeds_paired (calls st) = true.
Proof. intros Hr. apply (reachable_pairing st Hr). Qed.

(** *** How a flush ends *)

(** The constants are the doubles they stand for, [1e9f] is exact, and the
    single-precision division loses the last nanosecond of a timeout of
    1000000001 ns. *)
Lemma timeout_seconds_examples :
  double_0_1
  = SpecFloat.SFdiv 53 1024 (SpecFloat.binary_normalize 53 1024 1 0 false)
      (SpecFloat.binary_normalize 53 1024 10 0 false) /\
  double_1 = SpecFloat.binary_normalize 53 1024 1 0 false /\
  float_of_u64 1000000000 = SpecFloat.S754_finite false 15625000 6 /\
  timeout_seconds 1000000001 = double_1 /\
  timeout_seconds 0 = double_0.
Proof. repeat (split; [vm_compute; reflexivity|]). vm_compute; reflexivity. Qed.

Lemma flush_loop_end fuel : forall st x st',
  flush_loop fuel st = Some (x, st') ->
  exists c new, calls st' = c :: new ++ calls st /\
    match x with
    | Break => ended_done c = true
    | Returned =>
      ended_done c = false /\ short_send c || packet_error c = true
    end.
Proof.
  induction fuel as [|fuel IH]; intros st x st' H; simpl in H; [discriminate|].
  destruct (quiche_conn_send (world st)) as [written w1].
  destruct (written =? QUICHE_ERR_DONE) eqn:Hd.
  { inversion H; subst. exists (ConnSend written), []. split; [reflexivity|].
    exact Hd. }
  destruct (written <? 0) eqn:Hneg.
  { inversion H; subst. exists (ConnSend written), []. split; [reflexivity|].
    simpl. rewrite Hd, Hneg. split; reflexivity. }
  simpl in H. destruct (send written w1) as [sent w2].
  destruct (negb (sent =? written)) eqn:Hs.
  { inversion H; subst. exists (SockSend written sent), [ConnSend written].
    split; [reflexivity|]. simpl. rewrite Hs. split; reflexivity. }
  apply IH in H. destruct H as (c & new & Hc & Hx). simpl in Hc.
  exists c, (new ++ [SockSend written sent; ConnSend written]).
  split; [|exact Hx]. rewrite Hc, <- app_assoc. reflexivity.
Qed.

(** X2. A flush that returns ends in one of three ways, told by its last
    call.  The engine reported "done": the retransmission timer gets as
    its period the engine's current timeout in nanoseconds divided by
    [1e9f] in single precision, and is re-armed (stopped when that period
    is zero).  Otherwise the engine failed to produce a packet or the
    socket took another byte count than asked, and the timer is left as it
    was.  The other two timers and the request counter are never
    touched. *)
Theorem flush_ends_by_done_or_error fuel st st' :
  flush_egress fuel st = Some st' ->
  exists c new,
    calls st' = c :: new ++ calls st /\
    request (io st') = request (io st) /\
    close (io st') = close (io st) /\
    request_id (io st') = request_id (io st) /\
    if ended_done c
    then timer (io st')
         = EvTimer
             (negb (is_zero
                      (timeout_seconds
                         (to_u64 (quiche_conn_timeout_as_nanos (world st'))))))
             (timeout_seconds
                (to_u64 (quiche_conn_timeout_as_nanos (world st'))))
    else timer (io st') = timer (io st) /\
         short_send c || packet_error c = true.
Proof.
  intros H. pose proof (flush_egress_frame _ _ _ H) as (a1 & a2 & a3 & _).
  unfold flush_egress in H.
  destruct (flush_loop fuel st) as [[[] st1]|] eqn:E; inversion H; subst.
  - apply flush_loop_end in E as (c & new & Hc & Hx).
    exists c, new. rewrite Hx. repeat split; assumption.
  - pose proof (flush_loop_frame _ _ _ _ E) as (Hio & _).
    apply flush_loop_end in E as (c & new & Hc & Hx & Herr).
    exists c, new. rewrite Hx, Hio. repeat split; assumption.
Qed.

(** *** The retransmission-timeout callback *)

(** X5. A retransmission-timeout callback that returns has first notified
    the engine of the timeout and then only flushed; it leaves the
    ledger, the output and the scheduler's state as they were, and it asks
    the loop to stop exactly when the engine reports the connection closed
    after the flush. *)
Theorem timeout_cb_notifies_then_flushes fuel st st' :
  timeout_cb fuel st = Return st' ->
  (exists c new,
     calls st' = c :: new ++ OnTimeout :: calls st /\
     forallb flush_call (c :: new) = true) /\
  fcts st' = fcts st /\ stray st' = stray st /\ stdout st' = stdout st /\
  request_id (io st') = request_id (io st) /\
  request (io st') = request (io st) /\ close (io st') = close (io st) /\
  broken st' = quiche_conn_is_closed (world st') || broken st.
Proof.
  unfold timeout_cb. intros H.
  match type of H with context [flush_egress _ ?s] =>
    destruct (flush_egress fuel s) as [st2|] eqn:F; [|discriminate] end.
  pose proof (flush_egress_frame _ _ _ F) as (a1 & a2 & a3 & a4 & a5 & a6 & a7).
  apply flush_egress_calls in F as (c & new & [Hc Hk] & _).
  simpl in a1, a2, a3, a4, a5, a6, a7, Hc.
  destruct (quiche_conn_is_closed (world st2)) eqn:Hcl; inversion H; subst;
    cbn [calls fcts stray stdout io broken world ev_break]; rewrite ?Hcl;
    (split; [exists c, new; split; [exact Hc|exact Hk]|]);
    repeat split; assumption.
Qed.

(** *** The socket callback: closed and unestablished connections *)

(** The stream part of a pass: the stream loop on an established
    connection, nothing before the handshake is complete. *)
Definition pass_streams st : state W :=
  if quiche_conn_is_established (world st)
  then read_streams (quiche_conn_readable (world st)) st
  else st.

Lemma recv_cb_streams_then_flush fuel st st1 st' :
  recv_loop fuel st = Some (Break, st1) ->
  quiche_conn_is_closed (world st1) = false ->
  recv_cb fuel st = Return st' ->
  flush_egress fuel (pass_streams st1) = Some st'.
Proof.
  intros E Hc H. unfold recv_cb in H. rewrite E, Hc in H.
  fold (pass_streams st1) in H.
  destruct (flush_egress fuel (pass_streams st1)); [|discriminate].
  inversion H; subst. reflexivity.
Qed.

Lemma pass_streams_broken st : broken (pass_streams st) = broken st.
Proof.
  unfold pass_streams. destruct (quiche_conn_is_established (world st));
    [|reflexivity].
  apply (read_streams_frame (quiche_conn_readable (world st)) st).
Qed.

Lemma pass_streams_io st : io (pass_streams st) = io st.
Proof.
  unfold pass_streams. destruct (quiche_conn_is_established (world st));
    [|reflexivity].
  apply (read_streams_frame (quiche_conn_readable (world st)) st).
Qed.

(** X4. The socket callback asks the loop to stop only when the engine
    reports the connection closed after the datagrams were drained; in
    that pass it makes no call besides receiving and handing over
    datagrams (no stream is read, nothing is flushed) and leaves the
    connection context, the ledger and the output as they were. *)
Theorem recv_cb_breaks_only_when_closed fuel st st' :
  recv_cb fuel st = Return st' ->
  broken st = false -> broken st' = true ->
  quiche_conn_is_closed (world st') = true /\
  (exists new, added ingress_call st st' new) /\
  io st' = io st /\ fcts st' = fcts st /\ stray st' = stray st /\
  stdout st' = stdout st.
Proof.
  intros H Hb Hb'. destruct (recv_loop fuel st) as [[[] st1]|] eqn:E.
  - pose proof (recv_loop_frame _ _ _ _ E) as (a1 & a2 & a3 & a4 & a5).
    destruct (quiche_conn_is_closed (world st1)) eqn:Hcl.
    + unfold recv_cb in H. rewrite E, Hcl in H. inversion H; subst.
      apply recv_loop_calls in E as (c & new & Ha & _).
      split; [exact Hcl|]. split; [exists (c :: new); exact Ha|].
      repeat split; assumption.
    + pose proof (recv_cb_streams_then_flush _ _ _ _ E Hcl H) as F.
      apply flush_egress_frame in F as (_ & _ & _ & _ & _ & _ & f7).
      rewrite pass_streams_broken in f7. congruence.
  - pose proof (recv_loop_frame _ _ _ _ E) as (_ & _ & _ & _ & a5).
    unfold recv_cb in H. rewrite E in H. inversion H; subst. congruence.
  - unfold recv_cb in H. rewrite E in H. discriminate H.
Qed.

Lemma stamp_stdout upd i st : stdout (stamp upd i st) = stdout st.
Proof.
  unfold stamp. destruct (gettimeofday (world st)) as [now w].
  unfold ledger_write. destruct ((0 <=? i) && (i <? N)); reflexivity.
Qed.

(** *** The output calls of the socket callback *)

Lemma read_streams_output iter : forall st,
  exists rs,
    stream_reads (calls (read_streams iter st)) = stream_reads (calls st) ++ rs /\
    stdout (read_streams iter st) = stdout st ++ payloads rs.
Proof.
  induction iter as [|s0 rest IH]; intros st; simpl.
  { exists []. rewrite !app_nil_r. split; reflexivity. }
  destruct (quiche_conn_stream_recv (to_u64 s0) (world st))
    as [[recv_len fin] w1].
  destruct (recv_len <? 0) eqn:Hr.
  { exists [(to_u64 s0, recv_len)]. simpl. rewrite Hr, app_nil_r.
    split; reflexivity. }
  destruct (stream_step_spec st (to_u64 s0) recv_len fin w1)
    as (_ & _ & H3 & _).
  assert (Ho : stdout (if fin
                       then stamp set_end (wrap_index (to_u64 s0 / 4))
                              (print (Payload (to_int recv_len))
                                 (log (StreamRecv (to_u64 s0) recv_len fin)
                                    (set_world w1 st)))
                       else print (Payload (to_int recv_len))
                              (log (StreamRecv (to_u64 s0) recv_len fin)
                                 (set_world w1 st)))
               = stdout st ++ [Payload (to_int recv_len)]).
  { destruct fin; [rewrite stamp_stdout|]; reflexivity. }
  match goal with |- context [read_streams rest ?s] => set (st3 := s) in * end.
  destruct (IH st3) as (rs & Hrs & Hout).
  exists ((to_u64 s0, recv_len) :: rs). split.
  - rewrite Hrs, H3. simpl. rewrite <- app_assoc. reflexivity.
  - rewrite Hout, Ho. simpl. rewrite Hr, <- app_assoc. reflexivity.
Qed.

Lemma pass_streams_output st :
  exists rs,
    stream_reads (calls (pass_streams st)) = stream_reads (calls st) ++ rs /\
    stdout (pass_streams st) = stdout st ++ payloads rs.
Proof.
  unfold pass_streams. destruct (quiche_conn_is_established (world st)).
  - apply read_streams_output.
  - exists []. rewrite !app_nil_r. split; reflexivity.
Qed.

(** X9. A pass of the socket callback that returns has called [printf]
    exactly once for every stream read of that pass that did not fail, in
    the order of the reads and with the read's result converted to [int]
    as the precision (the most bytes the call may print); it has made no
    other output call, and none for a failed read. *)
Theorem recv_cb_one_printf_per_successful_read fuel st st' :
  recv_cb fuel st = Return st' ->
  exists rs,
    stream_reads (calls st') = stream_reads (calls st) ++ rs /\
    stdout st' = stdout st ++ payloads rs.
Proof.
  intros H. destruct (recv_loop fuel st) as [[[] st1]|] eqn:E.
  - pose proof (recv_loop_frame _ _ _ _ E) as (_ & _ & _ & a4 & _).
    pose proof (recv_loop_calls _ _ _ _ E) as (c & new & Ha & _).
    destruct (added_quiet _ _ _ _ ingress_call_quiet Ha) as (_ & q & _).
    destruct (quiche_conn_is_closed (world st1)) eqn:Hcl.
    + unfold recv_cb in H. rewrite E, Hcl in H. inversion H; subst.
      exists []. rewrite !app_nil_r. split; assumption.
    + pose proof (recv_cb_streams_then_flush _ _ _ _ E Hcl H) as F.
      pose proof (flush_egress_frame _ _ _ F) as (_ & _ & _ & _ & _ & f6 & _).
      apply flush_egress_calls in F as (cf & newf & Hf & _).
      destruct (added_quiet _ _ _ _ flush_call_quiet Hf) as (_ & qf & _).
      destruct (pass_streams_output st1) as (rs & Hrs & Hout).
      exists rs. rewrite qf, f6, Hrs, Hout, q, a4. split; reflexivity.
  - pose proof (recv_loop_frame _ _ _ _ E) as (_ & _ & _ & a4 & _).
    pose proof (recv_loop_calls _ _ _ _ E) as (c & new & Ha & _).
    destruct (added_quiet _ _ _ _ ingress_call_quiet Ha) as (_ & q & _).
    unfold recv_cb in H. rewrite E in H. inversion H; subst.
    exists []. rewrite !app_nil_r. split; assumption.
  - unfold recv_cb in H. rewrite E in H. discriminate H.
Qed.

(** *** Before the handshake is complete *)

(** X11. While the engine does not report the connection established, the
    socket callback reads no stream and leaves the ledger and the output
    as they were, and a request tick issues nothing: the request counter,
    the issued requests and the ledger stay as they were. *)
Theorem nothing_before_handshake fuel st st' :
  (forall x st1,
     recv_loop fuel st = Some (x, st1) ->
     quiche_conn_is_established (world st1) = false ->
     recv_cb fuel st = Return st' ->
     stream_reads (calls st') = stream_reads (calls st) /\
     fcts st' = fcts st /\ stray st' = stray st /\ stdout st' = stdout st) /\
  (quiche_conn_is_established (world st) = false ->
   request_cb fuel st = Return st' ->
   issued (calls st') = issued (calls st) /\
   request_id (io st') = request_id (io st) /\
   fcts st' = fcts st /\ stray st' = stray st).
Proof.
  split.
  - intros x st1 E He H.
    pose proof (recv_loop_frame _ _ _ _ E) as (_ & a2 & a3 & a4 & _).
    pose proof (recv_loop_calls _ _ _ _ E) as (c & new & Ha & _).
    destruct (added_quiet _ _ _ _ ingress_call_quiet Ha) as (_ & q & _).
    destruct x.
    + destruct (quiche_conn_is_closed (world st1)) eqn:Hcl.
      * unfold recv_cb in H. rewrite E, Hcl in H. inversion H; subst.
        repeat split; assumption.
      * pose proof (recv_cb_streams_then_flush _ _ _ _ E Hcl H) as F.
        unfold pass_streams in F. rewrite He in F.
        pose proof (flush_egress_frame _ _ _ F)
          as (_ & _ & _ & f4 & f5 & f6 & _).
        apply flush_egress_calls in F as (cf & newf & Hf & _).
        destruct (added_quiet _ _ _ _ flush_call_quiet Hf) as (_ & qf & _).
        rewrite qf, f4, f5, f6. repeat split; assumption.
    + unfold recv_cb in H. rewrite E in H. inversion H; subst.
      repeat split; assumption.
  - intros He H. unfold request_cb, request_issue in H. rewrite He in H.
    simpl in H.
    destruct (flush_egress fuel (request_timers st)) as [st3|] eqn:F;
      [|discriminate].
    inversion H; subst.
    pose proof (flush_egress_frame _ _ _ F) as (f1 & _ & _ & f4 & f5 & _).
    apply flush_egress_calls in F as (cf & newf & Hf & _).
    destruct (added_quiet _ _ _ _ flush_call_quiet Hf) as (qf & _).
    rewrite qf, f1, f4, f5, request_timers_calls.
    unfold request_timers.
    destruct (4 * N <? request_id (io st)); repeat split.
Qed.

(** *** Who writes which field of the ledger *)

Lemma map_alter_same {A B : Type} (g : A -> B) (f : A -> A) (l : list A) :
  (forall x, g (f x) = g x) -> forall i : nat, map g (alter f i l) = map g l.
Proof.
  intros Hg. induction l as [|x l IH]; intros [|i]; simpl;
    try reflexivity.
  - rewrite Hg. reflexivity.
  - f_equal. apply IH.
Qed.

Lemma stamp_end_begins i st :
  map begin (fcts (stamp set_end i st)) = map begin (fcts st).
Proof.
  unfold stamp. destruct (gettimeofday (world st)) as [now w].
  unfold ledger_write. destruct ((0 <=? i) && (i <? N)); simpl;
    [|reflexivity].
  apply map_alter_same. reflexivity.
Qed.

Lemma stamp_begin_ends i st :
  map end_ (fcts (stamp set_begin i st)) = map end_ (fcts st).
Proof.
  unfold stamp. destruct (gettimeofday (world st)) as [now w].
  unfold ledger_write. destruct ((0 <=? i) && (i <? N)); simpl;
    [|reflexivity].
  apply map_alter_same. reflexivity.
Qed.

Lemma read_streams_begins iter : forall st,
  map begin (fcts (read_streams iter st)) = map begin (fcts st).
Proof.
  induction iter as [|s0 rest IH]; intros st; simpl; [reflexivity|].
  destruct (quiche_conn_stream_recv (to_u64 s0) (world st))
    as [[recv_len fin] w1].
  destruct (recv_len <? 0); [reflexivity|].
  rewrite IH. destruct fin; [rewrite stamp_end_begins|]; reflexivity.
Qed.

Lemma timeout_cb_fcts fuel st st' :
  timeout_cb fuel st = Return st' -> fcts st' = fcts st.
Proof.
  unfold timeout_cb. intros H.
  match type of H with context [flush_egress _ ?s] =>
    destruct (flush_egress fuel s) as [st2|] eqn:F; [|discriminate] end.
  apply flush_egress_frame in F as (_ & _ & _ & f4 & _).
  destruct (quiche_conn_is_closed (world st2)); inversion H; subst; exact f4.
Qed.

(** X6. Each field of the ledger has one writer.  The socket callback
    never changes a begin timestamp, the request tick never changes an end
    timestamp, and the retransmission-timeout callback changes neither. *)
Theorem ledger_fields_have_one_writer fuel st st' :
  (recv_cb fuel st = Return st' ->
   map begin (fcts st') = map begin (fcts st)) /\
  (request_cb fuel st = Return st' ->
   map end_ (fcts st') = map end_ (fcts st)) /\
  (timeout_cb fuel st = Return st' -> fcts st' = fcts st).
Proof.
  split; [|split].
  - intros H. destruct (recv_loop fuel st) as [[[] st1]|] eqn:E.
    + pose proof (recv_loop_frame _ _ _ _ E) as (_ & a2 & _).
      destruct (quiche_conn_is_closed (world st1)) eqn:Hcl.
      * unfold recv_cb in H. rewrite E, Hcl in H. inversion H; subst.
        simpl. rewrite a2. reflexivity.
      * pose proof (recv_cb_streams_then_flush _ _ _ _ E Hcl H) as F.
        apply flush_egress_frame in F as (_ & _ & _ & f4 & _).
        rewrite f4, <- a2. unfold pass_streams.
        destruct (quiche_conn_is_established (world st1)); [|reflexivity].
        apply read_streams_begins.
    + pose proof (recv_loop_frame _ _ _ _ E) as (_ & a2 & _).
      unfold recv_cb in H. rewrite E in H. inversion H; subst.
      rewrite a2. reflexivity.
    + unfold recv_cb in H. rewrite E in H. discriminate H.
  - intros H. unfold request_cb in H.
    assert (Hi : forall st1,
               (request_issue st = inl st1 \/ request_issue st = inr st1) ->
               map end_ (fcts st1) = map end_ (fcts st)).
    { intros st1 Hst1. unfold request_issue in Hst1.
      destruct (quiche_conn_is_established (world st)
                && (request_id (io st) <=? 4 * N)).
      2:{ destruct Hst1 as [Hx|Hx]; inversion Hx; subst; reflexivity. }
      destruct (quiche_conn_stream_send (request_id (io st)) (world st))
        as [ret w1].
      destruct (to_int ret <? 0); destruct Hst1 as [Hx|Hx]; inversion Hx; subst.
      - reflexivity.
      - cbn [fcts set_io]. rewrite stamp_begin_ends. reflexivity. }
    destruct (request_issue st) as [st1|st1] eqn:E.
    + inversion H; subst. apply Hi. left. reflexivity.
    + destruct (flush_egress fuel (request_timers st1)) as [st3|] eqn:F;
        [|discriminate].
      inversion H; subst.
      apply flush_egress_frame in F as (_ & _ & _ & f4 & _).
      rewrite f4, <- (Hi st1 (or_intror eq_refl)). unfold request_timers.
      destruct (4 * N <? request_id (io st1)); reflexivity.
  - apply timeout_cb_fcts.
Qed.

(** *** The two phases of the scheduler *)

(** The cadence timer is armed only while the counter is within [4 * N],
    the grace timer only once it is past. *)
Definition phase st : Prop :=
  (active (request (io st)) = true -> request_id (io st) <= 4 * N) /\
  (active (close (io st)) = true -> 4 * N < request_id (io st)).

Lemma phase_same_schedule st st' : same_schedule st st' -> phase st -> phase st'.
Proof.
  intros (a1 & a2 & a3 & _) H. unfold phase. rewrite a1, a2, a3. exact H.
Qed.

(** The guarded write leaves the timers alone, and does nothing at all
    once the counter is past [4 * N]. *)
Lemma request_issue_timers st st1 :
  request_issue st = inr st1 ->
  request (io st1) = request (io st) /\ close (io st1) = close (io st) /\
  (4 * N < request_id (io st) -> st1 = st).
Proof.
  intros H. split; [|split].
  - unfold request_issue in H.
    destruct (quiche_conn_is_established (world st)
              && (request_id (io st) <=? 4 * N)).
    2:{ inversion H; subst. reflexivity. }
    destruct (quiche_conn_stream_send (request_id (io st)) (world st))
      as [ret w1].
    destruct (to_int ret <? 0); inversion H; subst.
    cbn [io set_io request]. rewrite stamp_io. reflexivity.
  - unfold request_issue in H.
    destruct (quiche_conn_is_established (world st)
              && (request_id (io st) <=? 4 * N)).
    2:{ inversion H; subst. reflexivity. }
    destruct (quiche_conn_stream_send (request_id (io st)) (world st))
      as [ret w1].
    destruct (to_int ret <? 0); inversion H; subst.
    cbn [io set_io close]. rewrite stamp_io. reflexivity.
  - intros Hg. rewrite request_issue_closed in H by exact Hg.
    inversion H. reflexivity.
Qed.

Lemma phase_request_cb fuel st st' :
  request_cb fuel st = Return st' -> phase st -> phase st'.
Proof.
  unfold request_cb. intros H [Hreq Hcl].
  pose proof (request_issue_spec st) as Hs.
  destruct (request_issue st) as [st1|st1] eqn:E.
  - destruct Hs as (_ & _ & Hio). inversion H; subst.
    unfold phase. rewrite Hio. split; assumption.
  - destruct (request_issue_timers _ _ E) as (t1 & t2 & t3).
    destruct (flush_egress fuel (request_timers st1)) as [st3|] eqn:F;
      [|discriminate].
    inversion H; subst. apply flush_egress_frame in F.
    apply (phase_same_schedule _ _ F). unfold phase, request_timers.
    destruct (4 * N <? request_id (io st1)) eqn:Hg; cbn [io set_io request
      close request_id active ev_timer_stop ev_timer_again set_repeat].
    + apply Z.ltb_lt in Hg. split; [discriminate|]. intros _. exact Hg.
    + apply Z.ltb_ge in Hg. split; [intros _; exact Hg|].
      rewrite t2. intros Ha. specialize (Hcl Ha).
      rewrite (t3 Hcl) in Hg. lia.
Qed.

Lemma reachable_phase st : reachable st -> phase st.
Proof.
  induction 1 as [fuel w st Hm|fuel ev st st' _ IH Hd].
  - apply flush_egress_frame in Hm. apply (phase_same_schedule _ _ Hm).
    unfold phase, N. simpl. split; [lia|discriminate].
  - destruct ev; simpl in Hd.
    + destruct (recv_loop fuel st) as [[[] st1]|] eqn:E.
      * pose proof (recv_loop_frame _ _ _ _ E) as Hf.
        apply same_driver_schedule in Hf.
        apply (phase_same_schedule _ _ Hf) in IH.
        destruct (quiche_conn_is_closed (world st1)) eqn:Hcl.
        -- unfold recv_cb in Hd. rewrite E, Hcl in Hd. inversion Hd; subst.
           exact IH.
        -- pose proof (recv_cb_streams_then_flush _ _ _ _ E Hcl Hd) as F.
           apply flush_egress_frame in F. apply (phase_same_schedule _ _ F).
           unfold phase. rewrite pass_streams_io. exact IH.
      * pose proof (recv_loop_frame _ _ _ _ E) as Hf.
        apply same_driver_schedule in Hf.
        unfold recv_cb in Hd. rewrite E in Hd. inversion Hd; subst.
        apply (phase_same_schedule _ _ Hf IH).
      * unfold recv_cb in Hd. rewrite E in Hd. discriminate Hd.
    + destruct (active (timer (io st))); [|inversion Hd; subst; exact IH].
      unfold timeout_cb in Hd.
      match type of Hd with context [flush_egress _ ?s] =>
        destruct (flush_egress fuel s) as [st2|] eqn:F; [|discriminate] end.
      apply flush_egress_frame in F.
      pose proof (phase_same_schedule _ _ F IH) as H2.
      destruct (quiche_conn_is_closed (world st2)); inversion Hd; subst;
        exact H2.
    + destruct (active (request (io st))); [|inversion Hd; subst; exact IH].
      apply (phase_request_cb _ _ _ Hd IH).
    + destruct (active (close (io st))).
      * destruct (close_cb_exits st) as (code & st2 & Hc).
        rewrite Hc in Hd. discriminate Hd.
      * inversion Hd; subst. exact IH.
Qed.

(** X7. In every state the event loop can be in, the cadence timer and the
    grace timer are never armed together: the cadence timer is armed only
    while fewer than [N] requests were issued, the grace timer only once
    all [N] were.  So the shutdown-grace handler, and with it the report
    and the exit, can only run after the [N]-th request was issued. *)
Theorem grace_timer_only_after_budget st :
  reachable st ->
  active (request (io st)) && active (close (io st)) = false /\
  (active (request (io st)) = true ->
   Z.of_nat (length (issued (calls st))) < N) /\
  (active (close (io st)) = true ->
   Z.of_nat (length (issued (calls st))) = N) /\
  (forall fuel code st',
     dispatch fuel CloseExpired st = Exit code st' ->
     Z.of_nat (length (issued (calls st))) = N).
Proof.
  intros Hr. destruct (reachable_phase _ Hr) as [Hreq Hcl].
  destruct (reachable_inv _ Hr) as (n & Hn & Hid & His & _).
  rewrite His, length_stride_ids.
  assert (H1 : active (request (io st)) = true -> Z.of_nat n < N).
  { intros Ha. specialize (Hreq Ha). lia. }
  assert (H2 : active (close (io st)) = true -> Z.of_nat n = N).
  { intros Ha. specialize (Hcl Ha). lia. }
  repeat split; try assumption.
  - destruct (active (request (io st))); [|reflexivity].
    destruct (active (close (io st))); [|reflexivity].
    specialize (H1 eq_refl). specialize (H2 eq_refl). lia.
  - intros fuel code st' Hd. simpl in Hd.
    destruct (active (close (io st))); [|discriminate Hd].
    apply H2. reflexivity.
Qed.

(** *** How the process ends *)

Lemma dispatch_exit fuel ev st code st' :
  dispatch fuel ev st = Exit code st' ->
  ev = CloseExpired /\ close_cb st = Exit code st'.
Proof.
  destruct ev; simpl.
  - unfold recv_cb. destruct (recv_loop fuel st) as [[[] st1]|];
      try discriminate.
    destruct (quiche_conn_is_closed (world st1)); [discriminate|].
    match goal with |- flushed ?r = _ -> _ => destruct r; discriminate end.
  - destruct (active (timer (io st))); [|discriminate].
    unfold timeout_cb.
    match goal with |- context [flush_egress fuel ?s] =>
      destruct (flush_egress fuel s) as [st2|]; [|discriminate] end.
    destruct (quiche_conn_is_closed (world st2)); discriminate.
  - destruct (active (request (io st))); [|discriminate].
    unfold request_cb. destruct (request_issue st); [discriminate|].
    match goal with |- flushed ?r = _ -> _ => destruct r; discriminate end.
  - destruct (active (close (io st))); [|discriminate]. auto.
Qed.

(** X8. When a run of the event loop ends the process, the exit status
    is 0, after [ev_break] or an accepted close, or it is 255 and the last
    call was a close request that the engine rejected with a negative
    result.  No other path of the loop ends the process. *)
Theorem ev_loop_exit_status evs : forall st code st',
  ev_loop evs st = Exit code st' ->
  (exit_status code = 0 /\
   (broken st' = true \/
    exists r cs, calls st' = ConnClose r :: cs /\ 0 <= r)) \/
  (exit_status code = 255 /\
   exists r cs, calls st' = ConnClose r :: cs /\ r < 0).
Proof.
  induction evs as [|[ev fuel] evs IH]; intros st code st' H; simpl in H;
    [discriminate|].
  destruct (dispatch fuel ev st) as [st1|code1 st1|] eqn:D; try discriminate.
  - destruct (broken st1) eqn:Hb.
    + inversion H; subst. left. split; [reflexivity|]. left. exact Hb.
    + apply (IH _ _ _ H).
  - inversion H; subst. apply dispatch_exit in D as [_ D].
    destruct (close_cb_spec st) as (st2 & Hc & _ & Hcalls & _).
    rewrite D in Hc. inversion Hc; subst.
    destruct (fst (quiche_conn_close (world st)) <? 0) eqn:Hr.
    + right. split; [reflexivity|]. apply Z.ltb_lt in Hr. eauto.
    + left. split; [reflexivity|]. right. apply Z.ltb_ge in Hr. eauto.
Qed.

(** *** The reported latency *)

Lemma to_i64_u64_small x : 0 <= x < 2 ^ 63 -> to_i64 (to_u64 x) = x.
Proof.
  intros Hx. unfold to_i64, to_u64.
  rewrite (Z.mod_small x) by lia. rewrite Z.mod_small; lia.
Qed.

(** X10. For a ledger entry whose timestamps are well-formed (microseconds
    within a second, seconds not negative and below 2^50) and whose end is
    not before its begin, the reported value is not negative and is the
    elapsed time in milliseconds, off by less than one millisecond. *)
Theorem report_is_elapsed_milliseconds f :
  0 <= tv_usec (begin f) < 1000000 ->
  0 <= tv_usec (end_ f) < 1000000 ->
  0 <= tv_sec (begin f) ->
  tv_sec (end_ f) < 2 ^ 50 ->
  micros (begin f) <= micros (end_ f) ->
  0 <= to_i64 (latency f) /\
  Z.abs (1000 * to_i64 (latency f) - (micros (end_ f) - micros (begin f)))
  < 1000.
Proof.
  unfold latency, micros. destruct f as [[bs bu] [es eu]]. simpl.
  intros Hbu Heu Hbs Hes Hle.
  pose proof (Z.quot_rem' (eu - bu) 1000) as Hq.
  pose proof (Z.rem_bound_abs (eu - bu) 1000 ltac:(lia)) as Hr.
  set (q := Z.quot (eu - bu) 1000) in *.
  set (r := Z.rem (eu - bu) 1000) in *.
  rewrite to_i64_u64_small by lia. lia.
Qed.

(** *** Which slot a callback writes *)

(** A stream read that reported fin on a stream whose ledger entry is
    slot [i]: its index [s / 4] is [i] modulo 2^59. *)
Definition fin_at (i : Z) (c : call) : bool :=
  match c with
  | StreamRecv s _ fin => fin && (wrap_index (s / 4) =? i)
  | _ => false
  end.

Lemma stamp_other_slots upd i st (j : nat) :
  Z.of_nat j <> i -> fcts (stamp upd i st) !! j = fcts st !! j.
Proof.
  intros Hne. unfold stamp. destruct (gettimeofday (world st)) as [now w].
  unfold ledger_write.
  destruct ((0 <=? i) && (i <? N)) eqn:Hi; simpl; [|reflexivity].
  apply andb_true_iff in Hi as [H0 _]. apply Z.leb_le in H0.
  apply list_lookup_alter_ne. lia.
Qed.

Lemma read_streams_slots iter : forall st,
  exists new,
    added stream_recv_call st (read_streams iter st) new /\
    forall j : nat,
      existsb (fin_at (Z.of_nat j)) new = false ->
      fcts (read_streams iter st) !! j = fcts st !! j.
Proof.
  induction iter as [|s0 rest IH]; intros st; simpl.
  { exists []. repeat split. }
  destruct (quiche_conn_stream_recv (to_u64 s0) (world st))
    as [[recv_len fin] w1].
  destruct (recv_len <? 0).
  { exists [StreamRecv (to_u64 s0) recv_len fin]. repeat split. }
  destruct (stream_step_spec st (to_u64 s0) recv_len fin w1)
    as (_ & _ & H3 & _).
  assert (Hf : forall j : nat,
             fin && (wrap_index (to_u64 s0 / 4) =? Z.of_nat j) = false ->
             fcts (if fin
                   then stamp set_end (wrap_index (to_u64 s0 / 4))
                          (print (Payload (to_int recv_len))
                             (log (StreamRecv (to_u64 s0) recv_len fin)
                                (set_world w1 st)))
                   else print (Payload (to_int recv_len))
                          (log (StreamRecv (to_u64 s0) recv_len fin)
                             (set_world w1 st))) !! j
             = fcts st !! j).
  { intros j Hj. destruct fin; [|reflexivity].
    rewrite stamp_other_slots; [reflexivity|].
    simpl in Hj. apply Z.eqb_neq in Hj. lia. }
  match goal with |- context [read_streams rest ?s] => set (st3 := s) in * end.
  destruct (IH st3) as (new & [Hc Hk] & Hs).
  exists (new ++ [StreamRecv (to_u64 s0) recv_len fin]). split; [split|].
  - rewrite Hc, H3, <- app_assoc. reflexivity.
  - rewrite forallb_app, Hk. reflexivity.
  - intros j Hj. rewrite existsb_app in Hj.
    apply orb_false_iff in Hj as [Hj1 Hj2]. simpl in Hj2.
    rewrite orb_false_r in Hj2. rewrite (Hs j Hj1). apply (Hf j Hj2).
Qed.

(** X12. A pass of the socket callback changes slot [j] of the ledger only
    if, in that pass, a stream was read to its fin whose identifier divided
    by 4 is [j] modulo 2^59 (the entry address wraps modulo 2^64); all
    other slots are as they were. *)
Theorem recv_cb_writes_only_finished_slots fuel st st' :
  recv_cb fuel st = Return st' ->
  exists new,
    calls st' = new ++ calls st /\
    forall j : nat,
      existsb (fin_at (Z.of_nat j)) new = false ->
      fcts st' !! j = fcts st !! j.
Proof.
  intros H. destruct (recv_loop fuel st) as [[[] st1]|] eqn:E.
  - pose proof (recv_loop_frame _ _ _ _ E) as (_ & a2 & _).
    pose proof (recv_loop_calls _ _ _ _ E) as (c & new & [Hc _] & _).
    destruct (quiche_conn_is_closed (world st1)) eqn:Hcl.
    + unfold recv_cb in H. rewrite E, Hcl in H. inversion H; subst.
      exists (c :: new). split; [exact Hc|]. intros j _. simpl.
      rewrite a2. reflexivity.
    + pose proof (recv_cb_streams_then_flush _ _ _ _ E Hcl H) as F.
      pose proof (flush_egress_frame _ _ _ F) as (_ & _ & _ & f4 & _).
      apply flush_egress_calls in F as (cf & newf & [Hcf _] & _).
      assert (Hp : exists news,
                 calls (pass_streams st1) = news ++ calls st1 /\
                 forall j : nat,
                   existsb (fin_at (Z.of_nat j)) news = false ->
                   fcts (pass_streams st1) !! j = fcts st1 !! j).
      { unfold pass_streams.
        destruct (quiche_conn_is_established (world st1)).
        - destruct (read_streams_slots (quiche_conn_readable (world st1)) st1)
            as (news & [Hn _] & Hs).
          exists news. split; assumption.
        - exists []. split; reflexivity. }
      destruct Hp as (news & Hn & Hs).
      exists ((cf :: newf) ++ news ++ c :: new). split.
      * rewrite Hcf, Hn, Hc. rewrite <- !app_assoc. reflexivity.
      * intros j Hj. rewrite !existsb_app in Hj.
        apply orb_false_iff in Hj as [_ Hj].
        apply orb_false_iff in Hj as [Hj _].
        rewrite f4, (Hs j Hj), a2. reflexivity.
  - pose proof (recv_loop_frame _ _ _ _ E) as (_ & a2 & _).
    pose proof (recv_loop_calls _ _ _ _ E) as (c & new & [Hc _] & _).
    unfold recv_cb in H. rewrite E in H. inversion H; subst.
    exists (c :: new). split; [exact Hc|]. intros j _. rewrite a2.
    reflexivity.
  - unfold recv_cb in H. rewrite E in H. discriminate H.
Qed.

(** X13. A request tick changes no slot of the ledger but the one of the
    stream it writes to, index [request_id / 4].  When the write succeeds
    and that index is within the ledger, the slot's begin timestamp
    becomes the clock reading taken after the write returned, and its end
    timestamp stays. *)
Theorem request_tick_stamps_its_slot fuel st st' :
  request_cb fuel st = Return st' ->
  (forall j : nat,
     Z.of_nat j <> Z.quot (request_id (io st)) 4 ->
     fcts st' !! j = fcts st !! j) /\
  (quiche_conn_is_established (world st) = true ->
   request_id (io st) <= 4 * N ->
   0 <= to_int (fst (quiche_conn_stream_send (request_id (io st))
                                             (world st))) ->
   0 <= Z.quot (request_id (io st)) 4 < N ->
   fcts st' !! Z.to_nat (Z.quot (request_id (io st)) 4)
   = set_begin
       (fst (gettimeofday
               (snd (quiche_conn_stream_send (request_id (io st))
                                             (world st)))))
     <$> fcts st !! Z.to_nat (Z.quot (request_id (io st)) 4)).
Proof.
  unfold request_cb, request_issue. intros H.
  destruct (quiche_conn_is_established (world st)) eqn:He;
    [destruct (request_id (io st) <=? 4 * N) eqn:Hg|]; cbn [andb] in H.
  - destruct (quiche_conn_stream_send (request_id (io st)) (world st))
      as [ret w1]. cbn [fst snd].
    destruct (to_int ret <? 0) eqn:Hr.
    + inversion H; subst. split; [reflexivity|].
      intros _ _ Hpos. apply Z.ltb_lt in Hr. lia.
    + match type of H with flushed (flush_egress _ ?s) = _ =>
        destruct (flush_egress fuel s) as [st3|] eqn:F; [|discriminate] end.
      inversion H; subst.
      apply flush_egress_frame in F as (_ & _ & _ & f4 & _).
      rewrite f4. clear f4.
      replace (fcts (request_timers _)) with
        (fcts (stamp set_begin (Z.quot (request_id (io st)) 4)
                 (log (StreamSend (request_id (io st)) (to_int ret))
                    (set_world w1 st))))
        by (unfold request_timers;
            match goal with |- context [if ?b then _ else _] =>
              destruct b end; reflexivity).
      split.
      * intros j Hj. rewrite stamp_other_slots by exact Hj. reflexivity.
      * intros _ _ _ [H0 HN]. unfold stamp. cbn [world log set_world].
        destruct (gettimeofday w1) as [now w2]. cbn [fst].
        unfold ledger_write.
        replace ((0 <=? Z.quot (request_id (io st)) 4)
                 && (Z.quot (request_id (io st)) 4 <? N)) with true
          by (symmetry; apply andb_true_iff; split;
              [apply Z.leb_le|apply Z.ltb_lt]; assumption).
        cbn [fcts log set_world]. apply list_lookup_alter_eq.
  - match type of H with flushed (flush_egress _ ?s) = _ =>
      destruct (flush_egress fuel s) as [st3|] eqn:F; [|discriminate] end.
    inversion H; subst.
    apply flush_egress_frame in F as (_ & _ & _ & f4 & _). rewrite f4.
    replace (fcts (request_timers st)) with (fcts st)
      by (unfold request_timers;
          destruct (4 * N <? request_id (io st)); reflexivity).
    split; [reflexivity|]. intros _ Hle. apply Z.leb_gt in Hg. lia.
  - match type of H with flushed (flush_egress _ ?s) = _ =>
      destruct (flush_egress fuel s) as [st3|] eqn:F; [|discriminate] end.
    inversion H; subst.
    apply flush_egress_frame in F as (_ & _ & _ & f4 & _). rewrite f4.
    replace (fcts (request_timers st)) with (fcts st)
      by (unfold request_timers;
          destruct (4 * N <? request_id (io st)); reflexivity).
    split; [reflexivity|]. intros Hx. discriminate Hx.
Qed.

(** *** How the datagram loop ends *)

(** A receive or hand-over after which the datagram loop goes on. *)
Definition drain_go (c : call) : bool :=
  match c with
  | SockRecv ret _ => 0 <=? ret
  | ConnRecv _ ret => negb (ret =? QUICHE_ERR_DONE) && (0 <=? ret)
  | _ => false
  end.

(** A receive or hand-over that ends the datagram loop. *)
Definition drain_end (c : call) : bool :=
  match c with
  | SockRecv ret _ => ret <? 0
  | ConnRecv _ ret => (ret =? QUICHE_ERR_DONE) || (ret <? 0)
  | _ => false
  end.

Lemma recv_loop_end fuel : forall st x st',
  recv_loop fuel st = Some (x, st') ->
  exists c new, calls st' = c :: new ++ calls st /\
    drain_end c = true /\ forallb drain_go new = true.
Proof.
  induction fuel as [|fuel IH]; intros st x st' H; simpl in H; [discriminate|].
  destruct (recv (world st)) as [[read errno] w1].
  destruct (read <? 0) eqn:Hr.
  { exists (SockRecv read errno), [].
    destruct ((errno =? EWOULDBLOCK) || (errno =? EAGAIN));
      inversion H; subst; repeat split; exact Hr. }
  assert (Hr' : (0 <=? read) = true)
    by (apply Z.leb_le; apply Z.ltb_ge in Hr; exact Hr).
  simpl in H. destruct (quiche_conn_recv read w1) as [done w2].
  destruct (done =? QUICHE_ERR_DONE) eqn:Hd.
  { inversion H; subst. exists (ConnRecv read done), [SockRecv read errno].
    split; [reflexivity|]. simpl. rewrite Hd, Hr'. split; reflexivity. }
  destruct (done <? 0) eqn:Hn.
  { inversion H; subst. exists (ConnRecv read done), [SockRecv read errno].
    split; [reflexivity|]. simpl. rewrite Hd, Hn, Hr'. split; reflexivity. }
  apply IH in H. destruct H as (c & new & Hc & He & Hg). simpl in Hc.
  exists c, (new ++ [ConnRecv read done; SockRecv read errno]).
  split; [|split].
  - rewrite Hc, <- app_assoc. reflexivity.
  - exact He.
  - rewrite forallb_app, Hg. simpl. rewrite Hd, Hr'.
    apply Z.ltb_ge in Hn.
    replace (0 <=? done) with true by (symmetry; apply Z.leb_le; exact Hn).
    reflexivity.
Qed.

(** X14. A pass of the socket callback that returns has drained the socket
    until something ended the loop: among its receive and hand-over calls
    the last one is a failed receive (would-block or an error) or a
    hand-over that the engine answered with "done" or an error, and every
    one before it succeeded; whatever the pass calls afterwards is neither
    a receive nor a hand-over. *)
Theorem recv_cb_drains_until_stopped fuel st st' :
  recv_cb fuel st = Return st' ->
  exists after c new,
    calls st' = after ++ c :: new ++ calls st /\
    forallb (fun c' => negb (ingress_call c')) after = true /\
    drain_end c = true /\ forallb drain_go new = true.
Proof.
  intros H. destruct (recv_loop fuel st) as [[[] st1]|] eqn:E.
  - pose proof (recv_loop_end _ _ _ _ E) as (c & new & Hc & He & Hg).
    destruct (quiche_conn_is_closed (world st1)) eqn:Hcl.
    + unfold recv_cb in H. rewrite E, Hcl in H. inversion H; subst.
      exists [], c, new. repeat split; assumption.
    + destruct (recv_cb_flush_path _ _ _ _ E Hcl H)
        as (st2 & news & [Hn Hkn] & F).
      apply flush_egress_calls in F as (cf & newf & [Hcf Hkf] & _).
      exists ((cf :: newf) ++ news), c, new. split; [|split; [|split]];
        try assumption.
      * rewrite Hcf, Hn, Hc, <- app_assoc. reflexivity.
      * rewrite forallb_app. apply andb_true_iff. split.
        -- eapply forallb_weaken; [|exact Hkf].
           intros []; simpl; intros; try discriminate; reflexivity.
        -- eapply forallb_weaken; [|exact Hkn].
           intros []; simpl; intros; try discriminate; reflexivity.
  - pose proof (recv_loop_end _ _ _ _ E) as (c & new & Hc & He & Hg).
    unfold recv_cb in H. rewrite E in H. inversion H; subst.
    exists [], c, new. repeat split; assumption.
  - unfold recv_cb in H. rewrite E in H. discriminate H.
Qed.

End Further.

(** ** Concrete runs for the further properties *)

(** Two datagrams arrive, of 1200 and 300 bytes; stream 4 is readable and
    delivers five bytes and its fin. *)
Definition answering : script :=
  Script [] [] [(1200, 0); (300, 0)] true false [4] [(4, (5, true))] []
         0 25000000 100.

(** The engine reports the connection closed. *)
Definition closing : script :=
  Script [] [] [] true true [] [] [] 0 25000000 100.

(** The handshake is not complete, though stream 4 is listed as readable. *)
Definition handshaking : script :=
  Script [] [] [] false false [4] [(4, (5, true))] [] 0 25000000 100.

Lemma sends_are_engine_packets_witness :
  reachable (final [(SockReadable, 8%nat); (RequestExpired, 8%nat)] recv_error)
  /\ sends_paired
       (calls (final [(SockReadable, 8%nat); (RequestExpired, 8%nat)]
                     recv_error)) = true.
Proof.
  assert (Hr : reachable (final [(SockReadable, 8%nat); (RequestExpired, 8%nat)]
                                recv_error))
    by (apply final_reachable; run).
  split; [exact Hr|]. apply (sends_are_engine_packets _ Hr).
Defined.

Lemma engine_is_fed_received_datagrams_witness :
  reachable (final [(SockReadable, 8%nat)] answering) /\
  feeds_paired (calls (final [(SockReadable, 8%nat)] answering)) = true.
Proof.
  assert (Hr : reachable (final [(SockReadable, 8%nat)] answering))
    by (apply final_reachable; run).
  split; [exact Hr|]. apply (engine_is_fed_received_datagrams _ Hr).
Defined.

Lemma flush_ends_by_done_or_error_witness :
  flush_egress 8 (main_init short_write) = Some (started short_write) /\
  exists c new,
    calls (started short_write) = c :: new ++ calls (main_init short_write) /\
    request (io (started short_write)) = request (io (main_init short_write)).
Proof.
  assert (H : flush_egress 8 (main_init short_write)
              = Some (started short_write)) by run.
  split; [exact H|].
  destruct (flush_ends_by_done_or_error 8 _ _ H) as (c & new & Hc & Hq & _).
  exists c, new. split; assumption.
Defined.

Lemma timeout_cb_notifies_then_flushes_witness :
  timeout_cb 8 (started quiet)
  = Return (returned (timeout_cb 8 (started quiet)) (started quiet)) /\
  fcts (returned (timeout_cb 8 (started quiet)) (started quiet))
  = fcts (started quiet) /\
  broken (returned (timeout_cb 8 (started quiet)) (started quiet))
  = quiche_conn_is_closed
      (world (returned (timeout_cb 8 (started quiet)) (started quiet)))
    || broken (started quiet).
Proof.
  assert (H : timeout_cb 8 (started quiet)
              = Return (returned (timeout_cb 8 (started quiet))
                                 (started quiet))) by run.
  split; [exact H|].
  destruct (timeout_cb_notifies_then_flushes 8 _ _ H)
    as (_ & Hf & _ & _ & _ & _ & _ & Hb).
  split; assumption.
Defined.

Lemma recv_cb_breaks_only_when_closed_witness :
  recv_cb 8 (started closing)
  = Return (returned (recv_cb 8 (started closing)) (started closing)) /\
  broken (started closing) = false /\
  broken (returned (recv_cb 8 (started closing)) (started closing)) = true /\
  quiche_conn_is_closed
    (world (returned (recv_cb 8 (started closing)) (started closing))) = true /\
  fcts (returned (recv_cb 8 (started closing)) (started closing))
  = fcts (started closing).
Proof.
  assert (H : recv_cb 8 (started closing)
              = Return (returned (recv_cb 8 (started closing))
                                 (started closing))) by run.
  assert (Hb : broken (started closing) = false) by run.
  assert (Hb' : broken (returned (recv_cb 8 (started closing))
                                 (started closing)) = true) by run.
  repeat (split; [assumption|]).
  destruct (recv_cb_breaks_only_when_closed 8 _ _ H Hb Hb')
    as (Hc & _ & _ & Hf & _).
  split; assumption.
Defined.

Lemma ledger_fields_have_one_writer_witness :
  recv_cb 8 (started answering)
  = Return (returned (recv_cb 8 (started answering)) (started answering)) /\
  map begin (fcts (returned (recv_cb 8 (started answering))
                            (started answering)))
  = map begin (fcts (started answering)).
Proof.
  assert (H : recv_cb 8 (started answering)
              = Return (returned (recv_cb 8 (started answering))
                                 (started answering))) by run.
  split; [exact H|].
  exact (proj1 (ledger_fields_have_one_writer 8 _ _) H).
Defined.

Lemma grace_timer_only_after_budget_witness :
  reachable (final (ticks 100) quiet) /\
  active (close (io (final (ticks 100) quiet))) = true /\
  Z.of_nat (length (issued (calls (final (ticks 100) quiet)))) = N.
Proof.
  assert (Hr : reachable (final (ticks 100) quiet))
    by (apply final_reachable; run).
  assert (Ha : active (close (io (final (ticks 100) quiet))) = true) by run.
  repeat (split; [assumption|]).
  destruct (grace_timer_only_after_budget _ Hr) as (_ & _ & H & _).
  exact (H Ha).
Defined.

Lemma ev_loop_exit_status_witness :
  ev_loop (ticks 100 ++ [(CloseExpired, 1%nat)]) (started quiet)
  = Exit 0 (final (ticks 100 ++ [(CloseExpired, 1%nat)]) quiet) /\
  ((exit_status 0 = 0 /\
    (broken (final (ticks 100 ++ [(CloseExpired, 1%nat)]) quiet) = true \/
     exists r cs,
       calls (final (ticks 100 ++ [(CloseExpired, 1%nat)]) quiet)
       = ConnClose r :: cs /\ 0 <= r)) \/
   (exit_status 0 = 255 /\
    exists r cs,
      calls (final (ticks 100 ++ [(CloseExpired, 1%nat)]) quiet)
      = ConnClose r :: cs /\ r < 0)).
Proof.
  assert (H : ev_loop (ticks 100 ++ [(CloseExpired, 1%nat)]) (started quiet)
              = Exit 0 (final (ticks 100 ++ [(CloseExpired, 1%nat)]) quiet))
    by run.
  split; [exact H|]. exact (ev_loop_exit_status _ _ _ _ H).
Defined.

Lemma recv_cb_one_printf_per_successful_read_witness :
  recv_cb 8 (started answering)
  = Return (returned (recv_cb 8 (started answering)) (started answering)) /\
  exists rs,
    stream_reads (calls (returned (recv_cb 8 (started answering))
                                  (started answering)))
    = stream_reads (calls (started answering)) ++ rs /\
    stdout (returned (recv_cb 8 (started answering)) (started answering))
    = stdout (started answering) ++ payloads rs.
Proof.
  assert (H : recv_cb 8 (started answering)
              = Return (returned (recv_cb 8 (started answering))
                                 (started answering))) by run.
  split; [exact H|]. exact (recv_cb_one_printf_per_successful_read 8 _ _ H).
Defined.

Lemma report_is_elapsed_milliseconds_witness :
  micros (begin (Fct (Timeval 100 900000) (Timeval 101 100500)))
  <= micros (end_ (Fct (Timeval 100 900000) (Timeval 101 100500))) /\
  0 <= to_i64 (latency (Fct (Timeval 100 900000) (Timeval 101 100500))) /\
  Z.abs (1000 * to_i64 (latency (Fct (Timeval 100 900000)
                                     (Timeval 101 100500)))
         - (micros (end_ (Fct (Timeval 100 900000) (Timeval 101 100500)))
            - micros (begin (Fct (Timeval 100 900000) (Timeval 101 100500)))))
  < 1000.
Proof.
  assert (H : micros (begin (Fct (Timeval 100 900000) (Timeval 101 100500)))
              <= micros (end_ (Fct (Timeval 100 900000) (Timeval 101 100500))))
    by run.
  split; [exact H|].
  apply (report_is_elapsed_milliseconds
           (Fct (Timeval 100 900000) (Timeval 101 100500)));
    try exact H; simpl; lia.
Defined.

Lemma nothing_before_handshake_witness :
  quiche_conn_is_established (world (started handshaking)) = false /\
  request_cb 8 (started handshaking)
  = Return (returned (request_cb 8 (started handshaking))
                     (started handshaking)) /\
  issued (calls (returned (request_cb 8 (started handshaking))
                          (started handshaking)))
  = issued (calls (started handshaking)) /\
  request_id (io (returned (request_cb 8 (started handshaking))
                           (started handshaking)))
  = request_id (io (started handshaking)).
Proof.
  assert (He : quiche_conn_is_established (world (started handshaking))
               = false) by run.
  assert (H : request_cb 8 (started handshaking)
              = Return (returned (request_cb 8 (started handshaking))
                                 (started handshaking))) by run.
  repeat (split; [assumption|]).
  destruct (proj2 (nothing_before_handshake 8 _ _) He H) as (H1 & H2 & _).
  split; assumption.
Defined.

Lemma recv_cb_writes_only_finished_slots_witness :
  recv_cb 8 (started answering)
  = Return (returned (recv_cb 8 (started answering)) (started answering)) /\
  exists new,
    calls (returned (recv_cb 8 (started answering)) (started answering))
    = new ++ calls (started answering) /\
    forall j : nat,
      existsb (fin_at (Z.of_nat j)) new = false ->
      fcts (returned (recv_cb 8 (started answering)) (started answering)) !! j
      = fcts (started answering) !! j.
Proof.
  assert (H : recv_cb 8 (started answering)
              = Return (returned (recv_cb 8 (started answering))
                                 (started answering))) by run.
  split; [exact H|]. exact (recv_cb_writes_only_finished_slots 8 _ _ H).
Defined.

Lemma request_tick_stamps_its_slot_witness :
  request_cb 8 (started quiet)
  = Return (returned (request_cb 8 (started quiet)) (started quiet)) /\
  fcts (returned (request_cb 8 (started quiet)) (started quiet)) !! 0%nat
  = fcts (started quiet) !! 0%nat /\
  fcts (returned (request_cb 8 (started quiet)) (started quiet))
    !! Z.to_nat (Z.quot (request_id (io (started quiet))) 4)
  = set_begin
      (fst (gettimeofday
              (snd (quiche_conn_stream_send (request_id (io (started quiet)))
                                            (world (started quiet))))))
    <$> fcts (started quiet)
          !! Z.to_nat (Z.quot (request_id (io (started quiet))) 4).
Proof.
  assert (H : request_cb 8 (started quiet)
              = Return (returned (request_cb 8 (started quiet))
                                 (started quiet))) by run.
  split; [exact H|].
  destruct (request_tick_stamps_its_slot 8 _ _ H) as [H1 H2].
  split.
  - apply (H1 0%nat). run.
  - apply H2; [run|run|run|split; run].
Defined.

Lemma recv_cb_drains_until_stopped_witness :
  recv_cb 8 (started answering)
  = Return (returned (recv_cb 8 (started answering)) (started answering)) /\
  exists after c new,
    calls (returned (recv_cb 8 (started answering)) (started answering))
    = after ++ c :: new ++ calls (started answering) /\
    forallb (fun c' => negb (ingress_call c')) after = true /\
    drain_end c = true /\ forallb drain_go new = true.
Proof.
  assert (H : recv_cb 8 (started answering)
              = Return (returned (recv_cb 8 (started answering))
                                 (started answering))) by run.
  split; [exact H|]. exact (recv_cb_drains_until_stopped 8 _ _ H).
Defined.
